(** * Bismuth governance voting: [DerivableKey]

    A shallow embedding of [bismuthvoting/derivablekey.py] and the
    properties of its key derivation and of its vote encryption.

    Python values are modelled as follows.
    - [int] is [Z] (unbounded), [&], [>>] and [%] are [Z.land], [Z.shiftr]
      and [Z.modulo] (floor modulus, as in Python).
    - [bytes] is a list of integers, each meant to be in [0, 256).
    - [str] is a list of code points.
    - A call either returns a value or raises: [result].
    The primitives of the libraries the module imports ([hmac]/[hashlib],
    [coincurve], [Cryptodome]) are variables of the section that holds the
    class; what a theorem needs from them is a hypothesis of that theorem. *)

From Stdlib Require Import ZArith List Lia Bool.
From Stdlib Require Ascii String.
Import ListNotations String.StringSyntax.
Local Open Scope Z_scope.
Delimit Scope string_scope with string.

(** ** Python run time *)

Definition bytes := list Z.
Definition str := list Z.

Inductive exn : Type :=
| AssertionError
| ValueError
| ZeroDivisionError
| UnicodeEncodeError
| UnicodeDecodeError.

Inductive result (A : Type) : Type :=
| Ok (a : A)
| Raise (e : exn).

Arguments Ok {A} a.
Arguments Raise {A} e.

Definition bind {A B : Type} (r : result A) (k : A -> result B) : result B :=
  match r with
  | Ok a => k a
  | Raise e => Raise e
  end.

Notation "x <- r ;; k" := (bind r (fun x => k))
  (at level 61, r at next level, right associativity).

(** [len(b)] as a Python integer. *)
Definition len {A : Type} (l : list A) : Z := Z.of_nat (length l).

Definition is_byte (b : Z) : Prop := 0 <= b < 256.

(** ** [int_to_string] and [string_to_int] *)

Definition FIELD_ORDER : Z := 2 ^ 256.

(** The [while x:] loop of [int_to_string]. Each turn shifts [x] right by
    eight bits, so a number below [2 ^ fuel] is used up within [fuel] turns
    ([int_to_string_loop_fuel]). *)
Fixpoint int_to_string_loop (fuel : nat) (x : Z) (result : list Z) : list Z :=
  match fuel with
  | O => result
  | S fuel' =>
      if x =? 0 then result
      else
        let ordinal := Z.land x 0xFF in
        int_to_string_loop fuel' (Z.shiftr x 8) (result ++ [ordinal])
  end.

Definition int_to_string (x : Z) : result bytes :=
  if negb (x >=? 0) then Raise AssertionError
  else if x =? 0 then Ok [0]
  else Ok (rev (int_to_string_loop (S (Z.to_nat (Z.log2 x))) x [])).

(** Iterating over a [bytes] object yields integers, so the [ord] branch of
    the source is never taken. *)
Definition string_to_int (s : bytes) : Z :=
  fold_left (fun result c => 256 * result + c) s 0.

(** Value of a byte list read least significant byte first. *)
Fixpoint le_value (l : list Z) : Z :=
  match l with
  | [] => 0
  | b :: r => b + 256 * le_value r
  end.

(** ** [bytes.split], [bytes.hex] and the UTF-8 codec *)

(** [b.split(sep)] for a separator of one byte: cut at every occurrence. *)
Fixpoint split (sep : Z) (b : bytes) : list bytes :=
  match b with
  | [] => [[]]
  | c :: r =>
      if c =? sep then [] :: split sep r
      else
        match split sep r with
        | seg :: segs => (c :: seg) :: segs
        | [] => [[c]]
        end
  end.

Definition count (sep : Z) (b : bytes) : nat := count_occ Z.eq_dec b sep.

Definition hex_digit (d : Z) : Z := if d <? 10 then 48 + d else 87 + d.

(** [b.hex()]: two lowercase digits per byte. *)
Definition hex (b : bytes) : str :=
  flat_map (fun x => [hex_digit (x / 16); hex_digit (x mod 16)]) b.

Definition is_surrogate (c : Z) : bool := (0xD800 <=? c) && (c <=? 0xDFFF).

(** The code points [str.encode] accepts: Unicode scalar values. *)
Definition scalar_value (c : Z) : Prop :=
  0 <= c < 0x110000 /\ is_surrogate c = false.

Definition utf8_encode_char (c : Z) : result bytes :=
  if c <? 0 then Raise UnicodeEncodeError
  else if c <? 0x80 then Ok [c]
  else if c <? 0x800 then Ok [0xC0 + c / 64; 0x80 + c mod 64]
  else if c <? 0x10000 then
    if is_surrogate c then Raise UnicodeEncodeError
    else Ok [0xE0 + c / 4096; 0x80 + (c / 64) mod 64; 0x80 + c mod 64]
  else if c <? 0x110000 then
    Ok [0xF0 + c / 262144; 0x80 + (c / 4096) mod 64;
        0x80 + (c / 64) mod 64; 0x80 + c mod 64]
  else Raise UnicodeEncodeError.

(** [s.encode("utf-8")] *)
Fixpoint utf8_encode (s : str) : result bytes :=
  match s with
  | [] => Ok []
  | c :: r =>
      b <- utf8_encode_char c;;
      bs <- utf8_encode r;;
      Ok (b ++ bs)
  end.

Definition is_continuation (b : Z) : bool := (0x80 <=? b) && (b <? 0xC0).

(** [b.decode("utf-8")]: strict, so overlong forms, surrogates, code points
    above U+10FFFF and truncated sequences raise. *)
Fixpoint utf8_decode (b : bytes) : result str :=
  match b with
  | [] => Ok []
  | b0 :: r0 =>
      if (0 <=? b0) && (b0 <? 0x80) then
        s <- utf8_decode r0;; Ok (b0 :: s)
      else if (0xC2 <=? b0) && (b0 <? 0xE0) then
        match r0 with
        | b1 :: r1 =>
            if is_continuation b1 then
              s <- utf8_decode r1;;
              Ok ((b0 - 0xC0) * 64 + (b1 - 0x80) :: s)
            else Raise UnicodeDecodeError
        | _ => Raise UnicodeDecodeError
        end
      else if (0xE0 <=? b0) && (b0 <? 0xF0) then
        match r0 with
        | b1 :: b2 :: r2 =>
            let c := (b0 - 0xE0) * 4096 + (b1 - 0x80) * 64 + (b2 - 0x80) in
            if is_continuation b1 && is_continuation b2
               && (0x800 <=? c) && negb (is_surrogate c)
            then s <- utf8_decode r2;; Ok (c :: s)
            else Raise UnicodeDecodeError
        | _ => Raise UnicodeDecodeError
        end
      else if (0xF0 <=? b0) && (b0 <? 0xF5) then
        match r0 with
        | b1 :: b2 :: b3 :: r3 =>
            let c := (b0 - 0xF0) * 262144 + (b1 - 0x80) * 4096
                     + (b2 - 0x80) * 64 + (b3 - 0x80) in
            if is_continuation b1 && is_continuation b2 && is_continuation b3
               && (0x10000 <=? c) && (c <? 0x110000)
            then s <- utf8_decode r3;; Ok (c :: s)
            else Raise UnicodeDecodeError
        | _ => Raise UnicodeDecodeError
        end
      else Raise UnicodeDecodeError
  end.

(** A string literal of the source as code points. *)
Definition str_of_string (s : String.string) : str :=
  map (fun a => Z.of_N (Ascii.N_of_ascii a)) (String.list_ascii_of_string s).

Arguments str_of_string s%_string.

Definition SPACE : Z := 32.

(** An object of the class holds its seed and nothing else. *)
Record DerivableKey : Type := { seed : bytes }.

(** ** Stand-ins for the library primitives

    Small executable functions with the interface of the primitives, used
    to run the model on concrete inputs. *)
Module Double.

(** Uncompressed point format: a [0x04] byte and 64 bytes. *)
Definition public_key (secret : bytes) : result bytes :=
  Ok (4 :: secret ++ secret).

(** A 64-byte digest: 32 bytes [0xFF], then the key cut or filled to 32. *)
Definition hmac_sha512 (key msg : bytes) : bytes :=
  repeat 255 32%nat ++ firstn 32 (key ++ repeat 0 32%nat).

Definition zero_bytes (n : nat) : bytes := repeat 0 n.

(** Two draws of [get_random_bytes]: [00 01 02 ..], free of [0x20] up to 32
    bytes, and [20 20 ..]. *)
Definition ramp_bytes (n : nat) : bytes := map Z.of_nat (seq 0 n).

Definition space_bytes (n : nat) : bytes := repeat SPACE n.

Definition mask (data : bytes) : bytes := map (Z.lxor 90) data.

Definition cbc_ok (key iv data : bytes) : bool :=
  (len key =? 32) && (len iv =? 16) && (len data mod 16 =? 0).

Definition cbc_encrypt (key iv data : bytes) : result bytes :=
  if cbc_ok key iv data then Ok (mask data) else Raise ValueError.

Definition cbc_decrypt (key iv data : bytes) : result bytes :=
  if cbc_ok key iv data then Ok (mask data) else Raise ValueError.

Definition key32 : bytes := repeat 7 32%nat.

(** Parents with the chain code [09 .. 09] and the scalars 1, 2 and
    [02 00 .. 00]. The digest above starts with 32 bytes [0xFF], that is
    [2^256 - 1], so their child scalar integers are 0, 1 and [2^249 - 1]. *)
Definition parent_one : DerivableKey :=
  {| seed := repeat 0 31%nat ++ [1] ++ repeat 9 32%nat |}.

Definition parent_two : DerivableKey :=
  {| seed := repeat 0 31%nat ++ [2] ++ repeat 9 32%nat |}.

Definition parent_high : DerivableKey :=
  {| seed := [2] ++ repeat 0 31%nat ++ repeat 9 32%nat |}.

Definition context : str := str_of_string "a".

Definition pubkey_of (k : DerivableKey) : bytes :=
  4 :: firstn 32 (seed k) ++ firstn 32 (seed k).

(** The HMAC message for [context]: the hex text and the byte of ["a"]. *)
Definition message (k : DerivableKey) : bytes := hex (pubkey_of k) ++ [97].

Definition digest (k : DerivableKey) : bytes :=
  hmac_sha512 (skipn 32 (seed k)) (message k).

(** The padded text ["a b "] as [decrypt] recovers it, and its ciphertext. *)
Definition two_spaces : bytes := [97; 32; 98; 32] ++ repeat 0 12%nat.

Definition two_spaces_ct : bytes := mask two_spaces.

Definition iv16 : bytes :=
  [66; 105; 115; 109; 117; 116; 104; 32; 66; 71; 86; 80; 32; 73; 86; 46].

(** A 32-byte digest: the data cut or filled to 32 bytes. *)
Definition sha256 (data : bytes) : bytes := firstn 32 (data ++ repeat 0 32%nat).

(** The child [derive] returns for [parent_high] and [context]. *)
Definition child_high : DerivableKey :=
  {| seed := (1 :: repeat 255 31%nat) ++ repeat 9 32%nat |}.

(** An IV other than the default one. *)
Definition other_iv : bytes := repeat 1 16%nat.

Definition all_bytes (b : bytes) : bool :=
  forallb (fun x => (0 <=? x) && (x <? 256)) b.

Definition all_scalar_values (s : str) : bool :=
  forallb (fun c => (0 <=? c) && (c <? 0x110000) && negb (is_surrogate c)) s.

End Double.

(** ** The class [DerivableKey] *)

Section DerivableKey.

Set Default Proof Using "Type".

(** [BIP39(entropy).to_seed()], of the module [bismuthvoting.bip39]. *)
Variable bip39_to_seed : bytes -> result bytes.
(** [PrivateKey.from_hex(k.hex()).public_key.format(compressed=False)] *)
Variable public_key : bytes -> result bytes.
(** [sha256(data).digest()] *)
Variable sha256 : bytes -> bytes.
(** [hmac.new(key, msg, sha512).digest()] *)
Variable hmac_sha512 : bytes -> bytes -> bytes.
(** [get_random_bytes(n)]: any function stands for one possible draw. *)
Variable get_random_bytes : nat -> bytes.
(** [AES.new(key, AES.MODE_CBC, iv=iv).encrypt(data)] and [.decrypt(data)] *)
Variable aes_cbc_encrypt : bytes -> bytes -> bytes -> result bytes.
Variable aes_cbc_decrypt : bytes -> bytes -> bytes -> result bytes.

(** [len(data) % 0] raises; [b'\x00' * n] is empty for a negative [n], and
    [get_random_bytes] refuses one. *)
Definition random_padding (data : bytes) (block_size : Z)
    (pad_with_zeros : bool) : result bytes :=
  if block_size =? 0 then Raise ZeroDivisionError
  else
    let padding_len := block_size - len data mod block_size in
    padding <-
      (if pad_with_zeros then Ok (repeat 0 (Z.to_nat padding_len))
       else if padding_len <? 0 then Raise ValueError
       else Ok (get_random_bytes (Z.to_nat padding_len)));;
    Ok (data ++ padding).

(** [DerivableKey(entropy=..., seed=...)] *)
Definition init (entropy seed : option bytes) : result DerivableKey :=
  match seed with
  | None =>
      match entropy with
      | None => Raise AssertionError
      | Some e => s <- bip39_to_seed e;; Ok {| seed := s |}
      end
  | Some s => Ok {| seed := s |}
  end.

Definition to_pubkey (self : DerivableKey) : result bytes :=
  public_key (firstn 32 (seed self)).

Definition to_aes_key (self : DerivableKey) : result bytes :=
  pubkey <- to_pubkey self;;
  Ok (sha256 pubkey).

(** The integer [ks_int] of [derive], for the digest [I]. *)
Definition child_scalar (self : DerivableKey) (I : bytes) : Z :=
  (string_to_int (firstn 32 I) + string_to_int (firstn 32 (seed self)))
    mod FIELD_ORDER.

Definition derive (self : DerivableKey) (s : str) : result DerivableKey :=
  K <- to_pubkey self;;
  let data := hex K ++ s in
  msg <- utf8_encode data;;
  let I := hmac_sha512 (skipn 32 (seed self)) msg in
  let IR := skipn 32 I in
  let ks_int := child_scalar self I in
  ks <- int_to_string ks_int;;
  let cs := IR in
  Ok {| seed := ks ++ cs |}.

Definition IV_TEXT : str := str_of_string "Bismuth BGVP IV.".

(** The [if iv is None:] block shared by [encrypt] and [decrypt]. *)
Definition iv_or_default (iv : option bytes) : result bytes :=
  match iv with
  | None => utf8_encode IV_TEXT
  | Some iv => Ok iv
  end.

Definition encrypt (aes_key : bytes) (data : str) (pad_with_zeroes : bool)
    (iv : option bytes) : result bytes :=
  if negb (len aes_key =? 32) then Raise AssertionError
  else
    let data := data ++ [SPACE] in
    data <- utf8_encode data;;
    data <- random_padding data 16 pad_with_zeroes;;
    iv <- iv_or_default iv;;
    aes_cbc_encrypt aes_key iv data.

Definition decrypt (aes_key : bytes) (data : bytes) (iv : option bytes)
    : result str :=
  if negb (len aes_key =? 32) then Raise AssertionError
  else
    iv <- iv_or_default iv;;
    clear <- aes_cbc_decrypt aes_key iv data;;
    match split SPACE clear with
    | [clear; _] => utf8_decode clear
    | _ => Raise ValueError
    end.

(** What the proofs ask of the cipher: on a 32-byte key, a 16-byte IV and
    whole blocks, encryption returns and decryption undoes it. *)
Definition cbc_inverse : Prop :=
  forall key iv data,
    len key = 32 -> len iv = 16 -> len data mod 16 = 0 ->
    exists ct, aes_cbc_encrypt key iv data = Ok ct
               /\ aes_cbc_decrypt key iv ct = Ok data.

(** CBC without padding of its own: as many bytes out as in. *)
Definition cbc_keeps_length : Prop :=
  forall key iv data ct,
    aes_cbc_encrypt key iv data = Ok ct -> len ct = len data.

(** A draw of [n] random bytes is [n] bytes long. *)
Definition random_length : Prop :=
  forall n, length (get_random_bytes n) = n.

(** ** Big-endian conversion lemmas *)

Lemma string_to_int_app (s : bytes) (c : Z) :
  string_to_int (s ++ [c]) = 256 * string_to_int s + c.
Proof.
  unfold string_to_int. rewrite fold_left_app. reflexivity.
Qed.

Lemma string_to_int_rev (l : list Z) : string_to_int (rev l) = le_value l.
Proof.
  induction l as [|b r IH]; [reflexivity|].
  simpl rev. rewrite string_to_int_app, IH. simpl. lia.
Qed.

Lemma int_to_string_loop_acc (fuel : nat) :
  forall x acc,
    int_to_string_loop fuel x acc = acc ++ int_to_string_loop fuel x [].
Proof.
  induction fuel as [|f IH]; intros x acc; simpl.
  - now rewrite app_nil_r.
  - destruct (x =? 0).
    + now rewrite app_nil_r.
    + rewrite IH. rewrite (IH _ [Z.land x 255]). now rewrite <- app_assoc.
Qed.

Lemma byte_split (x : Z) : x = Z.land x 255 + 256 * Z.shiftr x 8.
Proof.
  change 255 with (Z.ones 8). rewrite Z.land_ones by lia.
  rewrite Z.shiftr_div_pow2 by lia. change (2 ^ 8) with 256.
  pose proof (Z.div_mod x 256). lia.
Qed.

Lemma low_byte_range (x : Z) : is_byte (Z.land x 255).
Proof.
  unfold is_byte. change 255 with (Z.ones 8). rewrite Z.land_ones by lia.
  change (2 ^ 8) with 256. apply Z.mod_pos_bound. lia.
Qed.

Lemma shiftr8_fuel (f : nat) (x : Z) :
  0 <= x < 2 ^ Z.of_nat (S f) -> 0 <= Z.shiftr x 8 < 2 ^ Z.of_nat f.
Proof.
  intros [H0 H1]. rewrite Z.shiftr_div_pow2 by lia. change (2 ^ 8) with 256.
  rewrite Nat2Z.inj_succ, Z.pow_succ_r in H1 by lia.
  split; [apply Z.div_pos; lia|].
  apply Z.div_lt_upper_bound; [lia|].
  assert (0 < 2 ^ Z.of_nat f) by (apply Z.pow_pos_nonneg; lia). lia.
Qed.

(** With enough fuel the loop writes out all of [x]. *)
Lemma int_to_string_loop_value (fuel : nat) :
  forall x, 0 <= x < 2 ^ Z.of_nat fuel ->
    le_value (int_to_string_loop fuel x []) = x.
Proof.
  induction fuel as [|f IH]; intros x Hx.
  - simpl in *. lia.
  - cbn [int_to_string_loop]. destruct (Z.eqb_spec x 0) as [->|Hnz]; [reflexivity|].
    cbn [app]. rewrite int_to_string_loop_acc. cbn [app le_value].
    rewrite IH by now apply shiftr8_fuel.
    symmetry. apply byte_split.
Qed.

(** The loop stops on [x = 0] and not on the fuel: more fuel changes nothing. *)
Lemma int_to_string_loop_fuel (fuel : nat) :
  forall x acc k, 0 <= x < 2 ^ Z.of_nat fuel ->
    int_to_string_loop (fuel + k) x acc = int_to_string_loop fuel x acc.
Proof.
  induction fuel as [|f IH]; intros x acc k Hx.
  - assert (x = 0) by (simpl in Hx; lia). subst x. destruct k; reflexivity.
  - cbn [Nat.add int_to_string_loop]. destruct (x =? 0); [reflexivity|].
    apply IH. now apply shiftr8_fuel.
Qed.

Lemma int_to_string_loop_bytes (fuel : nat) :
  forall x, Forall is_byte (int_to_string_loop fuel x []).
Proof.
  induction fuel as [|f IH]; intros x; simpl; [constructor|].
  destruct (x =? 0); [constructor|].
  rewrite int_to_string_loop_acc. constructor; [apply low_byte_range | apply IH].
Qed.

(** The last byte the loop writes (the first after [reverse]) is not zero. *)
Lemma int_to_string_loop_last (fuel : nat) :
  forall x, 0 < x < 2 ^ Z.of_nat fuel ->
    exists l b, int_to_string_loop fuel x [] = l ++ [b] /\ b <> 0.
Proof.
  induction fuel as [|f IH]; intros x Hx.
  - simpl in Hx. lia.
  - cbn [int_to_string_loop]. destruct (Z.eqb_spec x 0) as [->|Hnz]; [lia|].
    cbn [app]. rewrite int_to_string_loop_acc.
    destruct (Z.eqb_spec (Z.shiftr x 8) 0) as [Hz|Hs].
    + exists [], (Z.land x 255). rewrite Hz.
      split; [destruct f; reflexivity|].
      pose proof (byte_split x). lia.
    + assert (Hr : 0 <= Z.shiftr x 8 < 2 ^ Z.of_nat f) by (apply shiftr8_fuel; lia).
      destruct (IH (Z.shiftr x 8)) as (l & b & E & Hb); [lia|].
      exists (Z.land x 255 :: l), b. rewrite E. split; [reflexivity|exact Hb].
Qed.

Lemma log2_fuel (x : Z) : 0 < x -> 0 <= x < 2 ^ Z.of_nat (S (Z.to_nat (Z.log2 x))).
Proof.
  intros Hx. pose proof (Z.log2_spec x Hx) as [_ H]. pose proof (Z.log2_nonneg x).
  rewrite Nat2Z.inj_succ, Z2Nat.id by lia. lia.
Qed.

Lemma int_to_string_pos (x : Z) :
  0 < x ->
  int_to_string x = Ok (rev (int_to_string_loop (S (Z.to_nat (Z.log2 x))) x [])).
Proof.
  intros Hx. unfold int_to_string.
  destruct (Z.geb_spec x 0); [|lia]. cbn [negb].
  destruct (Z.eqb_spec x 0); [lia|reflexivity].
Qed.

Lemma int_to_string_zero : int_to_string 0 = Ok [0].
Proof. reflexivity. Qed.

Lemma int_to_string_negative (x : Z) : x < 0 -> int_to_string x = Raise AssertionError.
Proof.
  intros Hx. unfold int_to_string. destruct (Z.geb_spec x 0); [lia|reflexivity].
Qed.

Lemma len_app {A : Type} (l1 l2 : list A) : len (l1 ++ l2) = len l1 + len l2.
Proof. unfold len. rewrite length_app. lia. Qed.

Lemma len_nonneg {A : Type} (l : list A) : 0 <= len l.
Proof. unfold len. lia. Qed.

Lemma le_value_app (l : list Z) (b : Z) :
  le_value (l ++ [b]) = le_value l + 256 ^ len l * b.
Proof.
  induction l as [|a r IH]; cbn [app le_value].
  - change (len (@nil Z)) with 0. lia.
  - rewrite IH. replace (len (a :: r)) with (Z.succ (len r)) by (unfold len; simpl length; lia).
    rewrite Z.pow_succ_r by apply len_nonneg. lia.
Qed.

Lemma le_value_bound (l : list Z) :
  Forall is_byte l -> 0 <= le_value l < 256 ^ len l.
Proof.
  induction 1 as [|a r Ha _ IH]; cbn [le_value].
  - change (len (@nil Z)) with 0. lia.
  - replace (len (a :: r)) with (Z.succ (len r)) by (unfold len; simpl length; lia).
    rewrite Z.pow_succ_r by apply len_nonneg. unfold is_byte in Ha. lia.
Qed.

(** The number of bytes [int_to_string] writes for a positive [x]. *)
Lemma int_to_string_size (x : Z) (s : bytes) :
  0 < x -> int_to_string x = Ok s ->
  256 ^ (len s - 1) <= x < 256 ^ len s.
Proof.
  intros Hx E. rewrite int_to_string_pos in E by assumption.
  pose proof (log2_fuel x Hx) as Hf.
  set (fuel := S (Z.to_nat (Z.log2 x))) in *.
  assert (Es : s = rev (int_to_string_loop fuel x [])) by congruence.
  clear E. subst s.
  pose proof (int_to_string_loop_value fuel x Hf) as Hv.
  pose proof (int_to_string_loop_bytes fuel x) as Hb.
  destruct (int_to_string_loop_last fuel x) as (l & b & El & Hnz); [lia|].
  replace (len (rev (int_to_string_loop fuel x []))) with (len (int_to_string_loop fuel x []))
    by (unfold len; now rewrite length_rev).
  split.
  - rewrite El in Hv, Hb |- *. rewrite le_value_app in Hv.
    apply Forall_app in Hb as [Hl Hb1]. inversion Hb1 as [|? ? Hbb _]; subst.
    pose proof (le_value_bound l Hl). unfold is_byte in Hbb.
    rewrite len_app. change (len [b]) with 1. replace (len l + 1 - 1) with (len l) by lia.
    assert (0 < 256 ^ len l) by (apply Z.pow_pos_nonneg; [lia|apply len_nonneg]).
    nia.
  - pose proof (le_value_bound _ Hb). lia.
Qed.

Lemma int_to_string_short (x : Z) (s : bytes) :
  0 <= x < 2 ^ 248 -> int_to_string x = Ok s -> 1 <= len s <= 31.
Proof.
  intros [H0 H1] E. destruct (Z.eq_dec x 0) as [->|Hnz].
  - rewrite int_to_string_zero in E. injection E as <-. change (len [0]) with 1. lia.
  - pose proof (int_to_string_size x s ltac:(lia) E) as [Hlo Hhi].
    pose proof (len_nonneg s).
    assert (len s <> 0) by (intros Hz; rewrite Hz in Hhi; simpl in Hhi; lia).
    split; [lia|].
    destruct (Z_le_gt_dec (len s) 31); [assumption|].
    assert (256 ^ 31 <= 256 ^ (len s - 1)) by (apply Z.pow_le_mono_r; lia).
    change (2 ^ 248) with (256 ^ 31) in H1. lia.
Qed.

Lemma int_to_string_full (x : Z) (s : bytes) :
  2 ^ 248 <= x < 2 ^ 256 -> int_to_string x = Ok s -> len s = 32.
Proof.
  intros [H0 H1] E.
  assert (Hx : 0 < x) by (assert (0 < 2 ^ 248) by (apply Z.pow_pos_nonneg; lia); lia).
  pose proof (int_to_string_size x s Hx E) as [Hlo Hhi].
  pose proof (len_nonneg s).
  change (2 ^ 248) with (256 ^ 31) in H0. change (2 ^ 256) with (256 ^ 32) in H1.
  destruct (Z_lt_le_dec (len s) 32) as [Hlt|Hge].
  - assert (256 ^ len s <= 256 ^ 31) by (apply Z.pow_le_mono_r; lia). lia.
  - destruct (Z.eq_dec (len s) 32); [assumption|].
    assert (256 ^ 32 <= 256 ^ (len s - 1)) by (apply Z.pow_le_mono_r; lia). lia.
Qed.

Lemma int_to_string_total (x : Z) : 0 <= x -> exists s, int_to_string x = Ok s.
Proof.
  intros Hx. destruct (Z.eq_dec x 0) as [->|Hnz].
  - now exists [0].
  - eexists. apply int_to_string_pos. lia.
Qed.

(** ** [split] *)

Lemma split_not_nil (sep : Z) (b : bytes) : split sep b <> [].
Proof.
  destruct b as [|c r]; cbn [split]; [discriminate|].
  destruct (c =? sep); [discriminate|]. destruct (split sep r); discriminate.
Qed.

(** One segment more than there are separators. *)
Lemma split_length (sep : Z) (b : bytes) :
  length (split sep b) = S (count sep b).
Proof.
  unfold count. induction b as [|c r IH]; [reflexivity|].
  cbn [split count_occ]. destruct (Z.eqb_spec c sep) as [->|Hne].
  - destruct (Z.eq_dec sep sep); [|contradiction]. simpl. now rewrite IH.
  - destruct (Z.eq_dec c sep); [contradiction|].
    destruct (split sep r) eqn:E; [now apply split_not_nil in E|exact IH].
Qed.

Lemma split_no_sep (sep : Z) (b : bytes) : ~ In sep b -> split sep b = [b].
Proof.
  induction b as [|c r IH]; intros Hn; [reflexivity|].
  cbn [split]. destruct (Z.eqb_spec c sep) as [->|Hne].
  - exfalso. apply Hn. now left.
  - rewrite IH; [reflexivity|]. intros Hi. apply Hn. now right.
Qed.

(** The first segment ends at the first separator. *)
Lemma split_first (sep : Z) (a b : bytes) :
  ~ In sep a -> split sep (a ++ sep :: b) = a :: split sep b.
Proof.
  induction a as [|c r IH]; intros Hn; cbn [app split].
  - now rewrite Z.eqb_refl.
  - destruct (Z.eqb_spec c sep) as [->|Hne].
    + exfalso. apply Hn. now left.
    + rewrite IH; [reflexivity|]. intros Hi. apply Hn. now right.
Qed.

Lemma count_app (sep : Z) (a b : bytes) :
  count sep (a ++ b) = (count sep a + count sep b)%nat.
Proof. unfold count. apply count_occ_app. Qed.

Lemma count_zero_iff (sep : Z) (b : bytes) : count sep b = 0%nat <-> ~ In sep b.
Proof. unfold count. symmetry. apply count_occ_not_In. Qed.

Lemma count_pos_iff (sep : Z) (b : bytes) : (0 < count sep b)%nat <-> In sep b.
Proof. unfold count. symmetry. apply count_occ_In. Qed.

(** What the unpacking [clear, _ = clear.split(b" ")] accepts. *)
Lemma split_two_iff (sep : Z) (b : bytes) :
  (exists x y, split sep b = [x; y]) <-> count sep b = 1%nat.
Proof.
  pose proof (split_length sep b) as L. split.
  - intros (x & y & E). rewrite E in L. simpl in L. lia.
  - intros C. rewrite C in L.
    destruct (split sep b) as [|x [|y [|z t]]]; try discriminate L. now exists x, y.
Qed.

(** ** The UTF-8 codec *)

Lemma Ok_inj {A : Type} (a b : A) : Ok a = Ok b -> a = b.
Proof. congruence. Qed.

Ltac bool_to_prop :=
  repeat match goal with
    | H : andb _ _ = true |- _ => apply andb_true_iff in H; destruct H
    | H : andb _ _ = false |- _ => apply andb_false_iff in H; destruct H
    | H : negb _ = true |- _ => apply negb_true_iff in H
    | H : negb _ = false |- _ => apply negb_false_iff in H
    | H : (_ <=? _) = true |- _ => apply Z.leb_le in H
    | H : (_ <=? _) = false |- _ => apply Z.leb_gt in H
    | H : (_ <? _) = true |- _ => apply Z.ltb_lt in H
    | H : (_ <? _) = false |- _ => apply Z.ltb_ge in H
    end.

Ltac split_ifs :=
  repeat match goal with
    | |- context [if ?c then _ else _] =>
        let E := fresh "E" in destruct c eqn:E
    end.

(** Linear arithmetic with division and modulus by constants. The
    primitives are cleared first: they play no part in such goals. *)
Ltac euclid :=
  try clear bip39_to_seed; try clear public_key; try clear sha256;
  try clear hmac_sha512; try clear get_random_bytes;
  try clear aes_cbc_encrypt; try clear aes_cbc_decrypt;
  Z.to_euclidean_division_equations; lia.

Lemma utf8_encode_char_total (c : Z) :
  scalar_value c -> exists b, utf8_encode_char c = Ok b.
Proof.
  intros [Hr Hs]. unfold utf8_encode_char. rewrite Hs.
  split_ifs; bool_to_prop; try (eexists; reflexivity); lia.
Qed.

Lemma utf8_encode_char_scalar (c : Z) (b : bytes) :
  utf8_encode_char c = Ok b -> scalar_value c.
Proof.
  unfold utf8_encode_char, scalar_value. intros H.
  destruct (is_surrogate c) eqn:Es; unfold is_surrogate in Es;
    revert H; split_ifs; intros H; try discriminate H; bool_to_prop;
    (split; [lia | try reflexivity; try lia]).
Qed.

(** Only U+0020 puts a byte [0x20] into the encoding. *)
Lemma utf8_encode_char_space (c : Z) (b : bytes) :
  utf8_encode_char c = Ok b -> In SPACE b -> c = SPACE.
Proof.
  unfold utf8_encode_char, SPACE.
  split_ifs; intros H; try discriminate H; apply Ok_inj in H; subst b; bool_to_prop;
    cbn [In]; intros Hin;
    repeat (destruct Hin as [Hin|Hin]; [try lia; euclid|]); contradiction.
Qed.

Lemma utf8_decode_char (c : Z) (b rest : bytes) :
  utf8_encode_char c = Ok b ->
  utf8_decode (b ++ rest) = (s <- utf8_decode rest;; Ok (c :: s)).
Proof.
  unfold utf8_encode_char.
  destruct (c <? 0) eqn:E0; [discriminate|].
  destruct (c <? 128) eqn:E1.
  { intros H; apply Ok_inj in H; subst b. bool_to_prop. cbn [app utf8_decode].
    replace ((0 <=? c) && (c <? 128)) with true; [reflexivity|].
    symmetry. apply andb_true_iff. split; [apply Z.leb_le|apply Z.ltb_lt]; lia. }
  destruct (c <? 2048) eqn:E2.
  { intros H; apply Ok_inj in H; subst b. bool_to_prop. cbn [app utf8_decode].
    replace ((0 <=? 192 + c / 64) && (192 + c / 64 <? 128)) with false
      by (symmetry; apply andb_false_iff; right; apply Z.ltb_ge; euclid).
    replace ((194 <=? 192 + c / 64) && (192 + c / 64 <? 224)) with true
      by (symmetry; apply andb_true_iff; split; [apply Z.leb_le|apply Z.ltb_lt]; euclid).
    replace (is_continuation (128 + c mod 64)) with true
      by (symmetry; apply andb_true_iff; split; [apply Z.leb_le|apply Z.ltb_lt]; euclid).
    replace ((192 + c / 64 - 192) * 64 + (128 + c mod 64 - 128)) with c by euclid.
    reflexivity. }
  destruct (c <? 65536) eqn:E3.
  { destruct (is_surrogate c) eqn:Es; [discriminate|].
    intros H; apply Ok_inj in H; subst b. bool_to_prop. cbn [app utf8_decode].
    replace ((0 <=? 224 + c / 4096) && (224 + c / 4096 <? 128)) with false
      by (symmetry; apply andb_false_iff; right; apply Z.ltb_ge; euclid).
    replace ((194 <=? 224 + c / 4096) && (224 + c / 4096 <? 224)) with false
      by (symmetry; apply andb_false_iff; right; apply Z.ltb_ge; euclid).
    replace ((224 <=? 224 + c / 4096) && (224 + c / 4096 <? 240)) with true
      by (symmetry; apply andb_true_iff; split; [apply Z.leb_le|apply Z.ltb_lt]; euclid).
    replace (is_continuation (128 + c / 64 mod 64)) with true
      by (symmetry; apply andb_true_iff; split; [apply Z.leb_le|apply Z.ltb_lt]; euclid).
    replace (is_continuation (128 + c mod 64)) with true
      by (symmetry; apply andb_true_iff; split; [apply Z.leb_le|apply Z.ltb_lt]; euclid).
    replace ((224 + c / 4096 - 224) * 4096 + (128 + c / 64 mod 64 - 128) * 64
             + (128 + c mod 64 - 128)) with c by euclid.
    rewrite Es. replace (2048 <=? c) with true by (symmetry; apply Z.leb_le; lia).
    reflexivity. }
  destruct (c <? 1114112) eqn:E4; [|discriminate].
  intros H; apply Ok_inj in H; subst b. bool_to_prop. cbn [app utf8_decode].
  replace ((0 <=? 240 + c / 262144) && (240 + c / 262144 <? 128)) with false
    by (symmetry; apply andb_false_iff; right; apply Z.ltb_ge; euclid).
  replace ((194 <=? 240 + c / 262144) && (240 + c / 262144 <? 224)) with false
    by (symmetry; apply andb_false_iff; right; apply Z.ltb_ge; euclid).
  replace ((224 <=? 240 + c / 262144) && (240 + c / 262144 <? 240)) with false
    by (symmetry; apply andb_false_iff; right; apply Z.ltb_ge; euclid).
  replace ((240 <=? 240 + c / 262144) && (240 + c / 262144 <? 245)) with true
    by (symmetry; apply andb_true_iff; split; [apply Z.leb_le|apply Z.ltb_lt]; euclid).
  replace (is_continuation (128 + c / 4096 mod 64)) with true
    by (symmetry; apply andb_true_iff; split; [apply Z.leb_le|apply Z.ltb_lt]; euclid).
  replace (is_continuation (128 + c / 64 mod 64)) with true
    by (symmetry; apply andb_true_iff; split; [apply Z.leb_le|apply Z.ltb_lt]; euclid).
  replace (is_continuation (128 + c mod 64)) with true
    by (symmetry; apply andb_true_iff; split; [apply Z.leb_le|apply Z.ltb_lt]; euclid).
  replace ((240 + c / 262144 - 240) * 262144 + (128 + c / 4096 mod 64 - 128) * 4096
           + (128 + c / 64 mod 64 - 128) * 64 + (128 + c mod 64 - 128)) with c by euclid.
  replace (65536 <=? c) with true by (symmetry; apply Z.leb_le; lia).
  replace (c <? 1114112) with true by (symmetry; apply Z.ltb_lt; lia).
  reflexivity.
Qed.

Lemma utf8_encode_cons (c : Z) (r : str) :
  utf8_encode (c :: r) = (b <- utf8_encode_char c;; bs <- utf8_encode r;; Ok (b ++ bs)).
Proof. reflexivity. Qed.

Lemma utf8_encode_total (s : str) :
  Forall scalar_value s -> exists b, utf8_encode s = Ok b.
Proof.
  induction 1 as [|c r Hc _ [bs IH]]; [now exists []|].
  destruct (utf8_encode_char_total c Hc) as [b Eb].
  exists (b ++ bs). rewrite utf8_encode_cons, Eb, IH. reflexivity.
Qed.

Lemma utf8_encode_scalar (s : str) (b : bytes) :
  utf8_encode s = Ok b -> Forall scalar_value s.
Proof.
  revert b. induction s as [|c r IH]; intros b H; [constructor|].
  rewrite utf8_encode_cons in H.
  destruct (utf8_encode_char c) as [bc|] eqn:Ec; [|discriminate].
  destruct (utf8_encode r) as [br|] eqn:Er; [|discriminate].
  constructor; [now apply utf8_encode_char_scalar in Ec | now apply (IH br)].
Qed.

Lemma utf8_encode_app (s1 s2 : str) (b1 b2 : bytes) :
  utf8_encode s1 = Ok b1 -> utf8_encode s2 = Ok b2 ->
  utf8_encode (s1 ++ s2) = Ok (b1 ++ b2).
Proof.
  revert b1. induction s1 as [|c r IH]; intros b1 H1 H2.
  - apply Ok_inj in H1. subst b1. exact H2.
  - cbn [app]. rewrite utf8_encode_cons in H1 |- *.
    destruct (utf8_encode_char c) as [bc|]; [|discriminate].
    destruct (utf8_encode r) as [br|] eqn:Er; [|discriminate].
    cbn [bind] in H1 |- *. apply Ok_inj in H1. subst b1.
    rewrite (IH br eq_refl H2). cbn [bind]. now rewrite app_assoc.
Qed.

Lemma utf8_encode_no_space (s : str) (b : bytes) :
  utf8_encode s = Ok b -> ~ In SPACE s -> ~ In SPACE b.
Proof.
  revert b. induction s as [|c r IH]; intros b H Hn.
  - apply Ok_inj in H. now subst b.
  - rewrite utf8_encode_cons in H.
    destruct (utf8_encode_char c) as [bc|] eqn:Ec; [|discriminate].
    destruct (utf8_encode r) as [br|] eqn:Er; [|discriminate].
    cbn [bind] in H. apply Ok_inj in H. subst b.
    intros Hin. apply in_app_or in Hin as [Hin|Hin].
    + apply Hn. left. exact (utf8_encode_char_space c bc Ec Hin).
    + apply (IH br eq_refl); [|exact Hin]. intros Hr. apply Hn. now right.
Qed.

(** Strict decoding undoes encoding. *)
Lemma utf8_decode_encode (s : str) (b : bytes) :
  utf8_encode s = Ok b -> utf8_decode b = Ok s.
Proof.
  revert b. induction s as [|c r IH]; intros b H.
  - apply Ok_inj in H. now subst b.
  - rewrite utf8_encode_cons in H.
    destruct (utf8_encode_char c) as [bc|] eqn:Ec; [|discriminate].
    destruct (utf8_encode r) as [br|] eqn:Er; [|discriminate].
    cbn [bind] in H. apply Ok_inj in H. subst b.
    rewrite (utf8_decode_char c bc br Ec), (IH br eq_refl). reflexivity.
Qed.

(** Text of ASCII characters encodes to itself, byte for code point. *)
Lemma utf8_encode_ascii (s : str) :
  Forall (fun c => 0 <= c < 128) s -> utf8_encode s = Ok s.
Proof.
  induction 1 as [|c r Hc _ IH]; [reflexivity|].
  rewrite utf8_encode_cons, IH. unfold utf8_encode_char.
  destruct (Z.ltb_spec c 0); [lia|]. destruct (Z.ltb_spec c 128); [|lia].
  reflexivity.
Qed.

Lemma hex_digit_ascii (d : Z) : 0 <= d < 16 -> 0 <= hex_digit d < 128.
Proof. intros H. unfold hex_digit. destruct (d <? 10); lia. Qed.

Lemma hex_ascii (b : bytes) :
  Forall is_byte b -> Forall (fun c => 0 <= c < 128) (hex b).
Proof.
  induction 1 as [|x r Hx _ IH]; [constructor|].
  unfold is_byte in Hx. cbn [hex flat_map app].
  constructor; [apply hex_digit_ascii; euclid|].
  constructor; [apply hex_digit_ascii; euclid|exact IH].
Qed.

(** ** Padding *)

Lemma random_padding_16 (data : bytes) (pad_with_zeros : bool) :
  (pad_with_zeros = false -> random_length) ->
  exists padding,
    random_padding data 16 pad_with_zeros = Ok (data ++ padding)
    /\ len padding = 16 - len data mod 16
    /\ (pad_with_zeros = true -> padding = repeat 0 (Z.to_nat (16 - len data mod 16)))
    /\ (pad_with_zeros = false ->
        padding = get_random_bytes (Z.to_nat (16 - len data mod 16))).
Proof.
  intros Hrnd. unfold random_padding. cbn [Z.eqb].
  assert (Hm : 0 <= len data mod 16 < 16) by (apply Z.mod_pos_bound; lia).
  destruct (Z.ltb_spec (16 - len data mod 16) 0) as [Hneg|_]; [lia|].
  destruct pad_with_zeros; cbn [bind].
  - eexists. split; [reflexivity|]. split; [|split; [reflexivity|discriminate]].
    unfold len. rewrite repeat_length. fold (len data). lia.
  - eexists. split; [reflexivity|]. split; [|split; [discriminate|reflexivity]].
    unfold len. rewrite (Hrnd eq_refl). fold (len data). lia.
Qed.

Lemma padded_blocks (data padding : bytes) :
  len padding = 16 - len data mod 16 -> len (data ++ padding) mod 16 = 0.
Proof.
  intros H. rewrite len_app, H. euclid.
Qed.

Lemma repeat_zero_no_space (n : nat) : ~ In SPACE (repeat 0 n).
Proof. intros H. apply repeat_spec in H. discriminate H. Qed.

Lemma utf8_encode_IV_TEXT :
  utf8_encode IV_TEXT
  = Ok [66; 105; 115; 109; 117; 116; 104; 32; 66; 71; 86; 80; 32; 73; 86; 46].
Proof. reflexivity. Qed.

(** ** [int_to_string] against [string_to_int] *)

Lemma int_to_string_value (x : Z) (s : bytes) :
  0 <= x -> int_to_string x = Ok s -> string_to_int s = x.
Proof.
  intros Hx E. destruct (Z.eq_dec x 0) as [->|Hnz].
  - rewrite int_to_string_zero in E. apply Ok_inj in E. now subst s.
  - rewrite int_to_string_pos in E by lia. apply Ok_inj in E. subst s.
    rewrite string_to_int_rev. apply int_to_string_loop_value, log2_fuel. lia.
Qed.

Lemma int_to_string_bytes (x : Z) (s : bytes) :
  0 <= x -> int_to_string x = Ok s -> Forall is_byte s.
Proof.
  intros Hx E. destruct (Z.eq_dec x 0) as [->|Hnz].
  - rewrite int_to_string_zero in E. apply Ok_inj in E. subst s.
    constructor; [unfold is_byte; lia|constructor].
  - rewrite int_to_string_pos in E by lia. apply Ok_inj in E. subst s.
    apply Forall_rev, int_to_string_loop_bytes.
Qed.

Lemma int_to_string_leading (x : Z) (s : bytes) :
  0 < x -> int_to_string x = Ok s -> exists b r, s = b :: r /\ b <> 0.
Proof.
  intros Hx E. rewrite int_to_string_pos in E by lia. apply Ok_inj in E. subst s.
  pose proof (log2_fuel x Hx) as Hf.
  destruct (int_to_string_loop_last (S (Z.to_nat (Z.log2 x))) x) as (l & b & El & Hb);
    [split; [lia|apply Hf]|].
  exists b, (rev l). rewrite El, rev_app_distr. split; [reflexivity|exact Hb].
Qed.

(** ** [derive] *)

Lemma child_scalar_range (self : DerivableKey) (I : bytes) :
  0 <= child_scalar self I < 2 ^ 256.
Proof.
  unfold child_scalar, FIELD_ORDER. apply Z.mod_pos_bound.
  apply Z.pow_pos_nonneg; lia.
Qed.

(** [derive] once the public key and the HMAC message are known. *)
Lemma derive_steps (parent : DerivableKey) (s : str) (K msg : bytes) :
  to_pubkey parent = Ok K ->
  utf8_encode (hex K ++ s) = Ok msg ->
  derive parent s =
    (ks <- int_to_string (child_scalar parent (hmac_sha512 (skipn 32 (seed parent)) msg));;
     Ok {| seed := ks ++ skipn 32 (hmac_sha512 (skipn 32 (seed parent)) msg) |}).
Proof.
  intros HK Hm. unfold derive. rewrite HK. cbn [bind]. rewrite Hm. reflexivity.
Qed.

Lemma derive_message (K : bytes) (s : str) :
  Forall is_byte K -> Forall scalar_value s ->
  exists ctx, utf8_encode s = Ok ctx /\ utf8_encode (hex K ++ s) = Ok (hex K ++ ctx).
Proof.
  intros HK Hs. destruct (utf8_encode_total s Hs) as [ctx Hc].
  exists ctx. split; [exact Hc|].
  apply utf8_encode_app; [|exact Hc]. now apply utf8_encode_ascii, hex_ascii.
Qed.

Lemma len_skipn_32 (I : bytes) : len I = 64 -> len (skipn 32 I) = 32.
Proof. unfold len. rewrite length_skipn. lia. Qed.

(** ** Properties of the key derivation *)

(** C9. For every integer [x >= 0], [int_to_string x] returns a byte string
    that [string_to_int] reads back as [x]; it is the minimal big-endian
    encoding: its first byte is not zero when [x > 0], and it is the single
    byte [0x00] when [x = 0]. *)
Theorem string_to_int_int_to_string (x : Z) :
  0 <= x ->
  exists s,
    int_to_string x = Ok s
    /\ string_to_int s = x
    /\ Forall is_byte s
    /\ (0 < x -> exists b r, s = b :: r /\ b <> 0)
    /\ (x = 0 -> s = [0]).
Proof.
  intros Hx. destruct (int_to_string_total x Hx) as [s E].
  exists s. split; [exact E|].
  split; [now apply int_to_string_value|].
  split; [now apply (int_to_string_bytes x)|].
  split.
  - intros Hp. now apply (int_to_string_leading x).
  - intros ->. rewrite int_to_string_zero in E. apply Ok_inj in E. now subst s.
Qed.

(** C2. The seed of a derived key is not always 64 bytes long: when the
    child scalar integer is below [2^248] its serialization has at most 31
    bytes, and the seed [derive] returns has between 33 and 63 bytes. *)
Theorem derive_short_seed (parent : DerivableKey) (s : str) (K msg : bytes) :
  to_pubkey parent = Ok K ->
  utf8_encode (hex K ++ s) = Ok msg ->
  len (hmac_sha512 (skipn 32 (seed parent)) msg) = 64 ->
  child_scalar parent (hmac_sha512 (skipn 32 (seed parent)) msg) < 2 ^ 248 ->
  exists child,
    derive parent s = Ok child /\ 33 <= len (seed child) <= 63.
Proof.
  intros HK Hm HI Hlt.
  set (I := hmac_sha512 (skipn 32 (seed parent)) msg) in *.
  pose proof (child_scalar_range parent I) as Hr.
  destruct (int_to_string_total (child_scalar parent I)) as [ks Eks]; [lia|].
  exists {| seed := ks ++ skipn 32 I |}. split.
  - rewrite (derive_steps parent s K msg HK Hm). fold I. now rewrite Eks.
  - cbn [seed]. rewrite len_app, (len_skipn_32 I HI).
    pose proof (int_to_string_short _ ks (conj (proj1 Hr) Hlt) Eks). lia.
Qed.

(** X16. The seed of a derived key has 64 bytes exactly when the child
    scalar integer is at least [2^248]. *)
Lemma derive_seed_length (parent : DerivableKey) (s : str) (K msg : bytes)
    (child : DerivableKey) :
  to_pubkey parent = Ok K ->
  utf8_encode (hex K ++ s) = Ok msg ->
  len (hmac_sha512 (skipn 32 (seed parent)) msg) = 64 ->
  derive parent s = Ok child ->
  len (seed child) = 64
  <-> 2 ^ 248 <= child_scalar parent (hmac_sha512 (skipn 32 (seed parent)) msg).
Proof.
  intros HK Hm HI Hd.
  rewrite (derive_steps parent s K msg HK Hm) in Hd.
  set (I := hmac_sha512 (skipn 32 (seed parent)) msg) in *.
  pose proof (child_scalar_range parent I) as Hr.
  destruct (int_to_string (child_scalar parent I)) as [ks|] eqn:Eks; [|discriminate].
  cbn [bind] in Hd. apply Ok_inj in Hd. subst child. cbn [seed].
  rewrite len_app, (len_skipn_32 I HI).
  destruct (Z_lt_le_dec (child_scalar parent I) (2 ^ 248)) as [Hlt|Hge].
  - pose proof (int_to_string_short _ ks (conj (proj1 Hr) Hlt) Eks). lia.
  - pose proof (int_to_string_full _ ks (conj Hge (proj2 Hr)) Eks). lia.
Qed.

(** [derive] has no test of the child scalar: were it 0, the child
    returned would have the seed [0x00] followed by [I[32:]]. *)
Lemma derive_zero_scalar (parent : DerivableKey) (s : str) (K msg : bytes) :
  to_pubkey parent = Ok K ->
  utf8_encode (hex K ++ s) = Ok msg ->
  child_scalar parent (hmac_sha512 (skipn 32 (seed parent)) msg) = 0 ->
  derive parent s
  = Ok {| seed := 0 :: skipn 32 (hmac_sha512 (skipn 32 (seed parent)) msg) |}.
Proof.
  intros HK Hm Hz. rewrite (derive_steps parent s K msg HK Hm), Hz. reflexivity.
Qed.

(** ** [encrypt] and [decrypt] step by step *)

Lemma utf8_encode_delimited (p : str) (bp : bytes) :
  utf8_encode p = Ok bp -> utf8_encode (p ++ [SPACE]) = Ok (bp ++ [SPACE]).
Proof. intros H. now apply utf8_encode_app. Qed.

Lemma utf8_encode_delimited_inv (p : str) (data : bytes) :
  utf8_encode (p ++ [SPACE]) = Ok data ->
  exists bp, utf8_encode p = Ok bp /\ data = bp ++ [SPACE].
Proof.
  intros H. pose proof (utf8_encode_scalar _ _ H) as Hs.
  apply Forall_app in Hs as [Hp _].
  destruct (utf8_encode_total p Hp) as [bp Hbp]. exists bp. split; [exact Hbp|].
  rewrite (utf8_encode_delimited p bp Hbp) in H. now apply Ok_inj in H.
Qed.

Lemma iv_or_default_None :
  exists v, iv_or_default None = Ok v /\ len v = 16.
Proof. eexists. split; [apply utf8_encode_IV_TEXT|reflexivity]. Qed.

Lemma encrypt_steps (aes_key : bytes) (p : str) (pad : bool) (iv : option bytes)
    (bp v : bytes) :
  len aes_key = 32 ->
  utf8_encode p = Ok bp ->
  iv_or_default iv = Ok v ->
  encrypt aes_key p pad iv
  = (data <- random_padding (bp ++ [SPACE]) 16 pad;; aes_cbc_encrypt aes_key v data).
Proof.
  intros Hk Hp Hv. unfold encrypt. rewrite Hk. cbn [Z.eqb Pos.eqb negb].
  rewrite (utf8_encode_delimited p bp Hp). cbn [bind].
  destruct (random_padding (bp ++ [SPACE]) 16 pad); cbn [bind]; [|reflexivity].
  now rewrite Hv.
Qed.

Lemma decrypt_steps (aes_key ct : bytes) (iv : option bytes) (v clear : bytes) :
  len aes_key = 32 ->
  iv_or_default iv = Ok v ->
  aes_cbc_decrypt aes_key v ct = Ok clear ->
  decrypt aes_key ct iv
  = match split SPACE clear with
    | [clear; _] => utf8_decode clear
    | _ => Raise ValueError
    end.
Proof.
  intros Hk Hv Hc. unfold decrypt. rewrite Hk. cbn [Z.eqb Pos.eqb negb].
  rewrite Hv. cbn [bind]. rewrite Hc. reflexivity.
Qed.

(** Padding free of [0x20]: the split yields the payload and the padding. *)
Lemma split_padded_clean (bp padding : bytes) :
  ~ In SPACE bp -> ~ In SPACE padding ->
  split SPACE ((bp ++ [SPACE]) ++ padding) = [bp; padding].
Proof.
  intros Hb Hp. rewrite <- app_assoc. cbn [app].
  rewrite (split_first SPACE bp padding Hb), (split_no_sep SPACE padding Hp).
  reflexivity.
Qed.

(** Padding with a [0x20] in it: three segments or more. *)
Lemma split_padded_dirty (bp padding : bytes) :
  In SPACE padding ->
  (3 <= length (split SPACE ((bp ++ [SPACE]) ++ padding)))%nat.
Proof.
  intros Hp. rewrite split_length, !count_app.
  apply count_pos_iff in Hp. change (count SPACE [SPACE]) with 1%nat. lia.
Qed.

Lemma unpack_two_fails (segs : list bytes) :
  (3 <= length segs)%nat ->
  match segs with
  | [clear; _] => utf8_decode clear
  | _ => Raise ValueError
  end = Raise ValueError.
Proof.
  destruct segs as [|x [|y [|z t]]]; cbn [length]; intros H; try reflexivity; lia.
Qed.

(** [encrypt] returns, and what it encrypts is the encoded text, the
    delimiter and the padding. *)
Lemma encrypt_returns (aes_key : bytes) (p : str) (pad : bool) (iv : option bytes)
    (bp v : bytes) :
  cbc_inverse -> (pad = false -> random_length) ->
  len aes_key = 32 ->
  utf8_encode p = Ok bp ->
  iv_or_default iv = Ok v -> len v = 16 ->
  exists padding ct,
    random_padding (bp ++ [SPACE]) 16 pad = Ok ((bp ++ [SPACE]) ++ padding)
    /\ len padding = 16 - len (bp ++ [SPACE]) mod 16
    /\ (pad = true -> padding = repeat 0 (Z.to_nat (16 - len (bp ++ [SPACE]) mod 16)))
    /\ (pad = false ->
        padding = get_random_bytes (Z.to_nat (16 - len (bp ++ [SPACE]) mod 16)))
    /\ encrypt aes_key p pad iv = Ok ct
    /\ aes_cbc_encrypt aes_key v ((bp ++ [SPACE]) ++ padding) = Ok ct
    /\ aes_cbc_decrypt aes_key v ct = Ok ((bp ++ [SPACE]) ++ padding).
Proof.
  intros Hcbc Hrnd Hk Hp Hv Hvl.
  destruct (random_padding_16 (bp ++ [SPACE]) pad Hrnd) as (padding & Hpad & Hlen & Hz & Hr).
  destruct (Hcbc aes_key v ((bp ++ [SPACE]) ++ padding) Hk Hvl (padded_blocks _ _ Hlen))
    as (ct & Henc & Hdec).
  exists padding, ct. repeat split; try assumption.
  rewrite (encrypt_steps aes_key p pad iv bp v Hk Hp Hv), Hpad. exact Henc.
Qed.

(** ** Properties of the vote encryption *)

(** The round trip holds whenever the padding holds no byte [0x20]. *)
Lemma decrypt_encrypt_clean_padding (k : bytes) (p : str) (pad : bool) (bp : bytes) :
  cbc_inverse -> (pad = false -> random_length) ->
  len k = 32 ->
  utf8_encode p = Ok bp ->
  ~ In SPACE p ->
  (pad = false ->
   ~ In SPACE (get_random_bytes (Z.to_nat (16 - len (bp ++ [SPACE]) mod 16)))) ->
  exists ct, encrypt k p pad None = Ok ct /\ decrypt k ct None = Ok p.
Proof.
  intros Hcbc Hrnd Hk Hp Hns Hclean.
  destruct iv_or_default_None as (v & Hv & Hvl).
  destruct (encrypt_returns k p pad None bp v Hcbc Hrnd Hk Hp Hv Hvl)
    as (padding & ct & _ & _ & Hz & Hr & Henc & _ & Hdec).
  exists ct. split; [exact Henc|].
  rewrite (decrypt_steps k ct None v _ Hk Hv Hdec).
  rewrite split_padded_clean.
  - now apply utf8_decode_encode.
  - now apply (utf8_encode_no_space p).
  - destruct pad.
    + rewrite (Hz eq_refl). apply repeat_zero_no_space.
    + rewrite (Hr eq_refl). now apply Hclean.
Qed.

(** C3. For every 32-byte key [k] and every text [p] without a space,
    [encrypt] with zero padding and the default IV returns a ciphertext
    that [decrypt], with the same key and the default IV, turns back into
    [p]. *)
Theorem decrypt_encrypt_zero_padding (k : bytes) (p : str) :
  cbc_inverse ->
  len k = 32 ->
  Forall scalar_value p ->
  ~ In SPACE p ->
  exists ct, encrypt k p true None = Ok ct /\ decrypt k ct None = Ok p.
Proof.
  intros Hcbc Hk Hp Hns. destruct (utf8_encode_total p Hp) as [bp Hbp].
  apply (decrypt_encrypt_clean_padding k p true bp); try assumption; discriminate.
Qed.

(** C4. With random padding the round trip is lost as soon as the draw
    holds a byte [0x20]: [encrypt] returns a ciphertext on which [decrypt]
    raises [ValueError]. *)
Theorem encrypt_random_space_breaks_decrypt (k : bytes) (p : str) (bp : bytes) :
  cbc_inverse -> random_length ->
  len k = 32 ->
  utf8_encode p = Ok bp ->
  In SPACE (get_random_bytes (Z.to_nat (16 - len (bp ++ [SPACE]) mod 16))) ->
  exists ct,
    encrypt k p false None = Ok ct /\ decrypt k ct None = Raise ValueError.
Proof.
  intros Hcbc Hrnd Hk Hp Hdirty.
  destruct iv_or_default_None as (v & Hv & Hvl).
  destruct (encrypt_returns k p false None bp v Hcbc (fun _ => Hrnd) Hk Hp Hv Hvl)
    as (padding & ct & _ & _ & _ & Hr & Henc & _ & Hdec).
  exists ct. split; [exact Henc|].
  rewrite (decrypt_steps k ct None v _ Hk Hv Hdec).
  apply unpack_two_fails, split_padded_dirty. now rewrite (Hr eq_refl).
Qed.

(** C5. [decrypt] does not keep the segment before the first space when a
    second space follows: the ciphertext [encrypt] returns for the text
    ["a b"] makes [decrypt] raise [ValueError] instead of returning ["a"]. *)
Theorem decrypt_text_with_space (k : bytes) :
  cbc_inverse ->
  len k = 32 ->
  exists ct,
    encrypt k (str_of_string "a b") true None = Ok ct
    /\ decrypt k ct None = Raise ValueError.
Proof.
  intros Hcbc Hk.
  destruct iv_or_default_None as (v & Hv & Hvl).
  destruct (encrypt_returns k (str_of_string "a b") true None [97; 32; 98] v
              Hcbc ltac:(discriminate) Hk eq_refl Hv Hvl)
    as (padding & ct & _ & _ & Hz & _ & Henc & _ & Hdec).
  exists ct. split; [exact Henc|].
  rewrite (decrypt_steps k ct None v _ Hk Hv Hdec), (Hz eq_refl). reflexivity.
Qed.

(** C7. For every 32-byte key, text [p] and padding mode, [encrypt] pads
    the encoded text and its delimiter with [16 - (len mod 16)] bytes,
    between 1 and 16 and a whole block of 16 when the length is a multiple
    of 16 already; the ciphertext it returns has a length that is a multiple
    of 16 and at least [len(utf8(p)) + 1]. *)
Theorem encrypt_length (k : bytes) (p : str) (pad : bool) (iv : option bytes) :
  cbc_inverse -> cbc_keeps_length -> random_length ->
  len k = 32 ->
  Forall scalar_value p ->
  (forall v, iv = Some v -> len v = 16) ->
  exists bp padding ct,
    utf8_encode p = Ok bp
    /\ random_padding (bp ++ [SPACE]) 16 pad = Ok ((bp ++ [SPACE]) ++ padding)
    /\ len padding = 16 - (len bp + 1) mod 16
    /\ 1 <= len padding <= 16
    /\ ((len bp + 1) mod 16 = 0 -> len padding = 16)
    /\ encrypt k p pad iv = Ok ct
    /\ len ct = len bp + 1 + len padding
    /\ len ct mod 16 = 0
    /\ len bp + 1 <= len ct.
Proof.
  intros Hcbc Hkeep Hrnd Hk Hp Hiv.
  destruct (utf8_encode_total p Hp) as [bp Hbp].
  assert (Hv : exists v, iv_or_default iv = Ok v /\ len v = 16).
  { destruct iv as [v|]; [|apply iv_or_default_None].
    exists v. split; [reflexivity|now apply Hiv]. }
  destruct Hv as (v & Hv & Hvl).
  destruct (encrypt_returns k p pad iv bp v Hcbc (fun _ => Hrnd) Hk Hbp Hv Hvl)
    as (padding & ct & Hpad & Hlen & _ & _ & Henc & Hraw & _).
  assert (Hd : len (bp ++ [SPACE]) = len bp + 1) by (rewrite len_app; reflexivity).
  pose proof (Hkeep k v _ ct Hraw) as Hct. rewrite len_app, Hd in Hct.
  rewrite Hd in Hlen.
  assert (Hm : 0 <= (len bp + 1) mod 16 < 16) by (apply Z.mod_pos_bound; lia).
  exists bp, padding, ct. repeat split; try assumption; try lia.
  rewrite Hct, Hlen. euclid.
Qed.

(** C8. When no IV is given, [encrypt] and [decrypt] both hand the cipher
    the same 16 bytes, the UTF-8 encoding of ["Bismuth BGVP IV."]. *)
Theorem encrypt_decrypt_default_iv (k : bytes) (p : str) (pad : bool) (ct : bytes) :
  let iv := [66; 105; 115; 109; 117; 116; 104; 32; 66; 71; 86; 80; 32; 73; 86; 46] in
  utf8_encode (str_of_string "Bismuth BGVP IV.") = Ok iv
  /\ len iv = 16
  /\ encrypt k p pad None
     = (if negb (len k =? 32) then Raise AssertionError
        else data <- utf8_encode (p ++ [SPACE]);;
             data <- random_padding data 16 pad;;
             aes_cbc_encrypt k iv data)
  /\ decrypt k ct None
     = (if negb (len k =? 32) then Raise AssertionError
        else clear <- aes_cbc_decrypt k iv ct;;
             match split SPACE clear with
             | [clear; _] => utf8_decode clear
             | _ => Raise ValueError
             end)
  /\ encrypt k p pad None = encrypt k p pad (Some iv)
  /\ decrypt k ct None = decrypt k ct (Some iv).
Proof.
  cbn zeta. unfold encrypt, decrypt, iv_or_default.
  rewrite utf8_encode_IV_TEXT.
  repeat split; try reflexivity.
Qed.

(** C10. For every 32-byte key, IV and ciphertext, [decrypt] returns only
    when the CBC-decrypted bytes hold exactly one byte [0x20]; when they
    hold two or more, it raises [ValueError] instead of returning the
    segment before the first one. *)
Theorem decrypt_exactly_one_space (k ct : bytes) (iv : option bytes) :
  len k = 32 ->
  (forall s, decrypt k ct iv = Ok s ->
     exists v clear,
       iv_or_default iv = Ok v
       /\ aes_cbc_decrypt k v ct = Ok clear
       /\ count SPACE clear = 1%nat)
  /\ (forall v clear,
        iv_or_default iv = Ok v ->
        aes_cbc_decrypt k v ct = Ok clear ->
        (2 <= count SPACE clear)%nat ->
        decrypt k ct iv = Raise ValueError).
Proof.
  intros Hk. split.
  - intros s Hd. unfold decrypt in Hd. rewrite Hk in Hd. cbn [Z.eqb Pos.eqb negb] in Hd.
    destruct (iv_or_default iv) as [v|] eqn:Ev; [|discriminate].
    cbn [bind] in Hd.
    destruct (aes_cbc_decrypt k v ct) as [clear|] eqn:Ec; [|discriminate].
    cbn [bind] in Hd. exists v, clear.
    split; [reflexivity || assumption|]. split; [reflexivity || assumption|].
    apply split_two_iff.
    destruct (split SPACE clear) as [|x [|y [|z t]]]; try discriminate Hd.
    now exists x, y.
  - intros v clear Hv Hc Hn.
    rewrite (decrypt_steps k ct iv v clear Hk Hv Hc).
    apply unpack_two_fails. rewrite split_length. lia.
Qed.

(** ** More on [int_to_string] and [string_to_int] *)

Lemma int_to_string_loop_any_fuel (f1 f2 : nat) (x : Z) (acc : list Z) :
  0 <= x < 2 ^ Z.of_nat f1 -> 0 <= x < 2 ^ Z.of_nat f2 ->
  int_to_string_loop f1 x acc = int_to_string_loop f2 x acc.
Proof.
  intros H1 H2. destruct (Nat.le_ge_cases f1 f2) as [L|L].
  - replace f2 with (f1 + (f2 - f1))%nat by lia.
    symmetry. now apply int_to_string_loop_fuel.
  - replace f1 with (f2 + (f1 - f2))%nat by lia.
    now apply int_to_string_loop_fuel.
Qed.

(** One more byte at the low end: the serialization grows at its end. *)
Lemma int_to_string_snoc (q c : Z) (s : bytes) :
  0 < q -> is_byte c -> int_to_string q = Ok s ->
  int_to_string (256 * q + c) = Ok (s ++ [c]).
Proof.
  intros Hq Hc E. unfold is_byte in Hc.
  rewrite int_to_string_pos in E by lia. apply Ok_inj in E. subst s.
  rewrite int_to_string_pos by lia.
  pose proof (log2_fuel (256 * q + c) ltac:(lia)) as Hf.
  cbn [int_to_string_loop]. destruct (Z.eqb_spec (256 * q + c) 0) as [Hz|_]; [lia|].
  cbn [app]. rewrite int_to_string_loop_acc.
  assert (Hlow : Z.land (256 * q + c) 255 = c).
  { change 255 with (Z.ones 8). rewrite Z.land_ones by lia. change (2 ^ 8) with 256.
    euclid. }
  assert (Hhigh : Z.shiftr (256 * q + c) 8 = q).
  { rewrite Z.shiftr_div_pow2 by lia. change (2 ^ 8) with 256. euclid. }
  pose proof (shiftr8_fuel _ _ Hf) as Hq'. rewrite Hhigh in Hq'.
  rewrite Hlow, Hhigh.
  rewrite (int_to_string_loop_any_fuel _ (S (Z.to_nat (Z.log2 q))) q [] Hq'
             (log2_fuel q Hq)).
  cbn [app rev]. reflexivity.
Qed.

Lemma int_to_string_one_byte (b : Z) : is_byte b -> b <> 0 -> int_to_string b = Ok [b].
Proof.
  intros Hb Hnz. unfold is_byte in Hb. rewrite int_to_string_pos by lia.
  cbn [int_to_string_loop]. destruct (Z.eqb_spec b 0) as [Hz|_]; [lia|].
  assert (Hlow : Z.land b 255 = b).
  { change 255 with (Z.ones 8). rewrite Z.land_ones by lia. change (2 ^ 8) with 256.
    apply Z.mod_small. lia. }
  assert (Hhigh : Z.shiftr b 8 = 0).
  { rewrite Z.shiftr_div_pow2 by lia. change (2 ^ 8) with 256.
    apply Z.div_small. lia. }
  rewrite Hlow, Hhigh. cbn [app]. destruct (Z.to_nat (Z.log2 b)); reflexivity.
Qed.

Lemma string_to_int_zeros (n : nat) (s : bytes) :
  string_to_int (repeat 0 n ++ s) = string_to_int s.
Proof.
  unfold string_to_int. rewrite fold_left_app.
  replace (fold_left (fun result c => 256 * result + c) (repeat 0 n) 0) with 0;
    [reflexivity|].
  induction n as [|n IH]; [reflexivity|]. cbn [repeat fold_left]. exact IH.
Qed.

Lemma string_to_int_leading (b : Z) (r : bytes) :
  Forall is_byte (b :: r) -> b <> 0 -> 0 < string_to_int (b :: r).
Proof.
  intros Hs Hb. rewrite <- (rev_involutive (b :: r)), string_to_int_rev.
  cbn [rev]. rewrite le_value_app.
  inversion Hs as [|? ? Hbb Hr]; subst. unfold is_byte in Hbb.
  pose proof (le_value_bound (rev r) (Forall_rev Hr)).
  assert (0 < 256 ^ len (rev r)) by (apply Z.pow_pos_nonneg; [lia|apply len_nonneg]).
  nia.
Qed.

(** X1. For every [x > 0], [int_to_string x] returns [n] bytes with
    [256^(n-1) <= x < 256^n]: as many bytes as [x] needs and no more. *)
Theorem int_to_string_width (x : Z) :
  0 < x ->
  exists s, int_to_string x = Ok s /\ 256 ^ (len s - 1) <= x < 256 ^ len s.
Proof.
  intros Hx. destruct (int_to_string_total x) as [s E]; [lia|].
  exists s. split; [exact E|]. now apply int_to_string_size.
Qed.

(** X2. Reading a byte string with [string_to_int] and writing the number
    back with [int_to_string] returns the string without its leading zero
    bytes: a string that starts with a non-zero byte comes back unchanged,
    and zero bytes put before it are lost. *)
Theorem int_to_string_string_to_int (n : nat) (b : Z) (r : bytes) :
  Forall is_byte (b :: r) ->
  b <> 0 ->
  int_to_string (string_to_int (repeat 0 n ++ b :: r)) = Ok (b :: r).
Proof.
  intros Hs Hb. rewrite string_to_int_zeros. revert Hs.
  induction r as [|c r IH] using rev_ind; intros Hs.
  - inversion Hs; subst. replace (string_to_int [b]) with b by (cbn; lia).
    now apply int_to_string_one_byte.
  - change (b :: r ++ [c]) with ((b :: r) ++ [c]) in Hs |- *.
    apply Forall_app in Hs as [Hs Hc]. inversion Hc; subst.
    rewrite string_to_int_app.
    apply int_to_string_snoc; [now apply string_to_int_leading|assumption|now apply IH].
Qed.

(** X3. [string_to_int] reads big-endian: the value of [a ++ b] is the value
    of [a] shifted left by the bytes of [b], plus the value of [b]. *)
Theorem string_to_int_concat (a b : bytes) :
  string_to_int (a ++ b) = string_to_int a * 256 ^ len b + string_to_int b.
Proof.
  induction b as [|c b IH] using rev_ind.
  - rewrite app_nil_r. change (len (@nil Z)) with 0. cbn. lia.
  - rewrite app_assoc, !string_to_int_app, IH, len_app.
    change (len [c]) with 1. rewrite Z.pow_add_r by (try apply len_nonneg; lia).
    lia.
Qed.

(** X4. A string of [n] bytes reads as a number in [0, 256^n): 32 bytes
    give a number below [2^256]. *)
Theorem string_to_int_range (s : bytes) :
  Forall is_byte s -> 0 <= string_to_int s < 256 ^ len s.
Proof.
  intros Hs. rewrite <- (rev_involutive s), string_to_int_rev.
  replace (len (rev (rev s))) with (len (rev s))
    by (unfold len; now rewrite !length_rev).
  apply le_value_bound. now apply Forall_rev.
Qed.

(** ** More on [random_padding] *)

(** X5. For every positive block size, [random_padding] returns the data
    followed by between 1 and [block_size] bytes; the result fills
    [len(data) // block_size + 1] whole blocks, and with [pad_with_zeros]
    every added byte is zero. *)
Theorem random_padding_block (data : bytes) (block_size : Z) (pad_with_zeros : bool) :
  0 < block_size ->
  (pad_with_zeros = false -> random_length) ->
  exists padding,
    random_padding data block_size pad_with_zeros = Ok (data ++ padding)
    /\ 1 <= len padding <= block_size
    /\ len (data ++ padding) = block_size * (len data / block_size + 1)
    /\ len (data ++ padding) mod block_size = 0
    /\ (pad_with_zeros = true -> Forall (fun b => b = 0) padding).
Proof.
  intros Hb Hrnd. unfold random_padding.
  destruct (Z.eqb_spec block_size 0) as [Hz|_]; [lia|].
  pose proof (Z.mod_pos_bound (len data) block_size Hb) as Hm.
  pose proof (Z.div_mod (len data) block_size ltac:(lia)) as Hdm.
  destruct (Z.ltb_spec (block_size - len data mod block_size) 0) as [Hneg|_]; [lia|].
  set (n := block_size - len data mod block_size) in *.
  assert (Hlen : forall padding, len padding = n ->
            1 <= len padding <= block_size
            /\ len (data ++ padding) = block_size * (len data / block_size + 1)
            /\ len (data ++ padding) mod block_size = 0).
  { intros padding Hp. rewrite len_app, Hp.
    assert (E : len data + n = block_size * (len data / block_size + 1))
      by (unfold n; lia).
    split; [unfold n; lia|]. split; [exact E|].
    rewrite E, Z.mul_comm. apply Z.mod_mul. lia. }
  destruct pad_with_zeros; cbn [bind].
  - exists (repeat 0 (Z.to_nat n)). split; [reflexivity|].
    destruct (Hlen (repeat 0 (Z.to_nat n))) as (H1 & H2 & H3).
    { unfold len. rewrite repeat_length. lia. }
    repeat split; try assumption; try lia.
    intros _. apply Forall_forall. intros x Hx. now apply repeat_spec in Hx.
  - exists (get_random_bytes (Z.to_nat n)). split; [reflexivity|].
    destruct (Hlen (get_random_bytes (Z.to_nat n))) as (H1 & H2 & H3).
    { unfold len. rewrite (Hrnd eq_refl). lia. }
    repeat split; try assumption; try lia; try discriminate.
Qed.

(** ** More on [derive] and the keys *)

Lemma utf8_encode_char_error (c : Z) (e : exn) :
  utf8_encode_char c = Raise e -> e = UnicodeEncodeError.
Proof.
  unfold utf8_encode_char. split_ifs; intros H; try discriminate H; congruence.
Qed.

Lemma utf8_encode_error (s : str) (e : exn) :
  utf8_encode s = Raise e -> e = UnicodeEncodeError.
Proof.
  induction s as [|c r IH]; [discriminate|].
  rewrite utf8_encode_cons.
  destruct (utf8_encode_char c) as [bc|e1] eqn:Ec; cbn [bind].
  - destruct (utf8_encode r) as [br|e2]; cbn [bind]; [discriminate|].
    intros H. apply IH. congruence.
  - intros H. apply (utf8_encode_char_error c). congruence.
Qed.

(** A string with a code point [str.encode] refuses makes it raise. *)
Lemma utf8_encode_refuses (s : str) :
  ~ Forall scalar_value s -> utf8_encode s = Raise UnicodeEncodeError.
Proof.
  intros Hn. destruct (utf8_encode s) as [b|e] eqn:E.
  - exfalso. apply Hn. now apply (utf8_encode_scalar s b).
  - now rewrite (utf8_encode_error s e E).
Qed.

Lemma Forall_app_right {A : Type} (P : A -> Prop) (a s : list A) :
  Forall P a -> ~ Forall P s -> ~ Forall P (a ++ s).
Proof. intros _ Hn H. apply Hn. now apply Forall_app in H as [_ H]. Qed.

Lemma ascii_scalar (s : str) :
  Forall (fun c => 0 <= c < 128) s -> Forall scalar_value s.
Proof.
  intros H. apply (utf8_encode_scalar s s). now apply utf8_encode_ascii.
Qed.

(** X6. For a parent with the public key [K], [derive] returns a child
    exactly when every code point of the context is one [str.encode]
    accepts; any other context, one with a lone surrogate, makes it raise
    [UnicodeEncodeError]. The assertion of [int_to_string] never fails in
    [derive]. *)
Theorem derive_returns_iff (parent : DerivableKey) (s : str) (K : bytes) :
  to_pubkey parent = Ok K ->
  Forall is_byte K ->
  ((exists child, derive parent s = Ok child) <-> Forall scalar_value s)
  /\ (~ Forall scalar_value s -> derive parent s = Raise UnicodeEncodeError).
Proof.
  intros HK HKb.
  assert (Hfail : ~ Forall scalar_value s -> derive parent s = Raise UnicodeEncodeError).
  { intros Hn. unfold derive. rewrite HK. cbn [bind].
    rewrite utf8_encode_refuses; [reflexivity|].
    apply Forall_app_right; [|exact Hn]. now apply ascii_scalar, hex_ascii. }
  split; [split|exact Hfail].
  - intros [child Hc].
    unfold derive in Hc. rewrite HK in Hc. cbn [bind] in Hc.
    destruct (utf8_encode (hex K ++ s)) as [msg|] eqn:Em; [|discriminate].
    apply utf8_encode_scalar in Em. now apply Forall_app in Em as [_ Em].
  - intros Hs. destruct (derive_message K s HKb Hs) as (ctx & _ & Hm).
    rewrite (derive_steps parent s K _ HK Hm).
    set (I := hmac_sha512 (skipn 32 (seed parent)) (hex K ++ ctx)).
    pose proof (child_scalar_range parent I) as Hr.
    destruct (int_to_string_total (child_scalar parent I)) as [ks Eks]; [lia|].
    rewrite Eks. eexists. reflexivity.
Qed.

Lemma firstn_short_app {A : Type} (n : nat) (a b : list A) :
  (length a <= n)%nat -> firstn n (a ++ b) = a ++ firstn (n - length a) b.
Proof. intros H. rewrite firstn_app, firstn_all2 by exact H. reflexivity. Qed.

Lemma skipn_short_app {A : Type} (n : nat) (a b : list A) :
  (length a <= n)%nat -> skipn n (a ++ b) = skipn (n - length a) b.
Proof. intros H. rewrite skipn_app, skipn_all2 by exact H. reflexivity. Qed.

Lemma int_to_string_at_most_32 (x : Z) (s : bytes) :
  0 <= x < 2 ^ 256 -> int_to_string x = Ok s -> 1 <= len s <= 32.
Proof.
  intros Hx E. destruct (Z_lt_le_dec x (2 ^ 248)) as [Hlt|Hge].
  - pose proof (int_to_string_short x s ltac:(lia) E). lia.
  - pose proof (int_to_string_full x s ltac:(lia) E). lia.
Qed.

(** X8. What the slices [seed[:32]] and [seed[32:]] of a derived child
    hold. The child scalar [ks] has 1 to 32 bytes, the seed [len(ks) + 32];
    [seed[:32]] is [ks] followed by the first [32 - len(ks)] bytes of
    [I[32:]], [seed[32:]] is the rest of [I[32:]], and [to_pubkey] of the
    child is computed from that [seed[:32]]. When [ks] has 32 bytes the
    slices are [ks] and [I[32:]]. *)
Theorem derive_child_slices (parent : DerivableKey) (s : str) (K msg : bytes) :
  to_pubkey parent = Ok K ->
  utf8_encode (hex K ++ s) = Ok msg ->
  len (hmac_sha512 (skipn 32 (seed parent)) msg) = 64 ->
  exists ks child,
    int_to_string (child_scalar parent (hmac_sha512 (skipn 32 (seed parent)) msg))
    = Ok ks
    /\ derive parent s = Ok child
    /\ 1 <= len ks <= 32
    /\ len (seed child) = len ks + 32
    /\ firstn 32 (seed child)
       = ks ++ firstn (32 - length ks)
                 (skipn 32 (hmac_sha512 (skipn 32 (seed parent)) msg))
    /\ skipn 32 (seed child)
       = skipn (32 - length ks)
           (skipn 32 (hmac_sha512 (skipn 32 (seed parent)) msg))
    /\ to_pubkey child = public_key (firstn 32 (seed child))
    /\ (len ks = 32 ->
        firstn 32 (seed child) = ks
        /\ skipn 32 (seed child)
           = skipn 32 (hmac_sha512 (skipn 32 (seed parent)) msg)).
Proof.
  intros HK Hm HI.
  set (I := hmac_sha512 (skipn 32 (seed parent)) msg) in *.
  pose proof (child_scalar_range parent I) as Hr.
  destruct (int_to_string_total (child_scalar parent I)) as [ks Eks]; [lia|].
  pose proof (int_to_string_at_most_32 _ ks Hr Eks) as Hks.
  assert (Hle : (length ks <= 32)%nat) by (unfold len in Hks; lia).
  exists ks, {| seed := ks ++ skipn 32 I |}. cbn [seed].
  split; [exact Eks|].
  split; [rewrite (derive_steps parent s K msg HK Hm); fold I; now rewrite Eks|].
  split; [exact Hks|].
  split; [rewrite len_app, (len_skipn_32 I HI); reflexivity|].
  split; [now apply firstn_short_app|].
  split; [now apply skipn_short_app|].
  split; [reflexivity|].
  intros H32. assert (E : (32 - length ks = 0)%nat) by (unfold len in H32; lia).
  rewrite firstn_short_app, skipn_short_app, E by exact Hle.
  cbn [firstn skipn]. now rewrite app_nil_r.
Qed.

Lemma app_same_length {A : Type} (a1 a2 b1 b2 : list A) :
  length a1 = length a2 -> a1 ++ b1 = a2 ++ b2 -> a1 = a2 /\ b1 = b2.
Proof.
  revert a2. induction a1 as [|x a1 IH]; intros [|y a2] L E; try discriminate L.
  - now split.
  - cbn [app] in E. injection E as -> E. injection L as L.
    destruct (IH a2 L E) as [-> ->]. now split.
Qed.

Lemma hex_digit_injective (d1 d2 : Z) :
  0 <= d1 < 16 -> 0 <= d2 < 16 -> hex_digit d1 = hex_digit d2 -> d1 = d2.
Proof.
  unfold hex_digit. intros H1 H2.
  destruct (Z.ltb_spec d1 10), (Z.ltb_spec d2 10); lia.
Qed.

Lemma hex_injective (b1 b2 : bytes) :
  Forall is_byte b1 -> Forall is_byte b2 -> hex b1 = hex b2 -> b1 = b2.
Proof.
  intros H1. revert b2. induction H1 as [|x r1 Hx _ IH]; intros b2 H2 E.
  - destruct b2; [reflexivity|discriminate E].
  - destruct H2 as [|y r2 Hy H2]; [discriminate E|].
    cbn [hex flat_map app] in E. injection E as Ehi Elo E.
    unfold is_byte in Hx, Hy.
    apply hex_digit_injective in Ehi; [|euclid|euclid].
    apply hex_digit_injective in Elo; [|euclid|euclid].
    f_equal; [euclid|]. now apply IH.
Qed.

Lemma hex_length (b : bytes) : length (hex b) = (2 * length b)%nat.
Proof.
  induction b as [|x r IH]; [reflexivity|].
  cbn [hex flat_map app length]. fold (hex r). rewrite IH. lia.
Qed.

(** X9. The message [derive] hands to HMAC names the public key and the
    context without ambiguity: for public keys of one length, equal
    messages come from the same key and the same context. *)
Theorem derive_message_injective (K1 K2 : bytes) (s1 s2 : str) (msg : bytes) :
  Forall is_byte K1 ->
  Forall is_byte K2 ->
  length K1 = length K2 ->
  utf8_encode (hex K1 ++ s1) = Ok msg ->
  utf8_encode (hex K2 ++ s2) = Ok msg ->
  K1 = K2 /\ s1 = s2.
Proof.
  intros H1 H2 L E1 E2.
  apply utf8_decode_encode in E1. apply utf8_decode_encode in E2.
  rewrite E1 in E2. apply Ok_inj in E2.
  apply app_same_length in E2 as [EK Es]; [|rewrite !hex_length; lia].
  split; [now apply hex_injective|exact Es].
Qed.

(** X7. The AES key of a key object depends on the first 32 bytes of its
    seed alone: two seeds with the same 32-byte scalar and any chain codes
    give the same public key and the same AES key, the SHA-256 of that
    public key, or raise the same error. *)
Theorem to_aes_key_ignores_chain_code (ks cs1 cs2 : bytes) :
  len ks = 32 ->
  to_pubkey {| seed := ks ++ cs1 |} = public_key ks
  /\ to_aes_key {| seed := ks ++ cs1 |} = (K <- public_key ks;; Ok (sha256 K))
  /\ to_aes_key {| seed := ks ++ cs1 |} = to_aes_key {| seed := ks ++ cs2 |}.
Proof.
  intros H. assert (L : (length ks <= 32)%nat) by (unfold len in H; lia).
  assert (E : forall cs, firstn 32 (ks ++ cs) = ks).
  { intros cs. rewrite firstn_short_app by exact L.
    replace (32 - length ks)%nat with 0%nat by (unfold len in H; lia).
    cbn [firstn]. apply app_nil_r. }
  unfold to_aes_key, to_pubkey. cbn [seed]. rewrite !E. repeat split.
Qed.

(** ** More on [encrypt] and [decrypt] *)

Lemma iv_or_default_16 (iv : option bytes) :
  (forall v, iv = Some v -> len v = 16) ->
  exists v, iv_or_default iv = Ok v /\ len v = 16.
Proof.
  intros Hiv. destruct iv as [v|]; [|apply iv_or_default_None].
  exists v. split; [reflexivity|now apply Hiv].
Qed.

Lemma utf8_encode_keeps_space (s : str) (b : bytes) :
  utf8_encode s = Ok b -> In SPACE s -> In SPACE b.
Proof.
  revert b. induction s as [|c r IH]; intros b H Hin; [contradiction|].
  rewrite utf8_encode_cons in H.
  destruct (utf8_encode_char c) as [bc|] eqn:Ec; [|discriminate].
  destruct (utf8_encode r) as [br|] eqn:Er; [|discriminate].
  cbn [bind] in H. apply Ok_inj in H. subst b. apply in_or_app.
  destruct Hin as [->|Hin].
  - left. unfold SPACE in Ec. cbn in Ec. apply Ok_inj in Ec. subst bc. now left.
  - right. now apply (IH br).
Qed.

(** X10. The ciphertext [encrypt] returns has
    [16 * ((len(utf8(p)) + 1) // 16 + 1)] bytes: always more than the
    encoded text and its delimiter. *)
Theorem encrypt_ciphertext_length (k : bytes) (p : str) (pad : bool)
    (iv : option bytes) :
  cbc_inverse -> cbc_keeps_length -> random_length ->
  len k = 32 ->
  Forall scalar_value p ->
  (forall v, iv = Some v -> len v = 16) ->
  exists bp ct,
    utf8_encode p = Ok bp
    /\ encrypt k p pad iv = Ok ct
    /\ len ct = 16 * ((len bp + 1) / 16 + 1)
    /\ len bp + 1 < len ct.
Proof.
  intros Hcbc Hkeep Hrnd Hk Hp Hiv.
  destruct (utf8_encode_total p Hp) as [bp Hbp].
  destruct (iv_or_default_16 iv Hiv) as (v & Hv & Hvl).
  destruct (encrypt_returns k p pad iv bp v Hcbc (fun _ => Hrnd) Hk Hbp Hv Hvl)
    as (padding & ct & _ & Hlen & _ & _ & Henc & Hraw & _).
  pose proof (Hkeep k v _ ct Hraw) as Hct. rewrite len_app, Hlen in Hct.
  replace (len (bp ++ [SPACE])) with (len bp + 1) in Hct
    by (rewrite len_app; reflexivity).
  exists bp, ct. split; [exact Hbp|]. split; [exact Henc|].
  rewrite Hct. split; euclid.
Qed.

(** X11. When the decrypted bytes hold no byte [0x20], [decrypt] raises
    [ValueError]. *)
Theorem decrypt_no_delimiter (k ct : bytes) (iv : option bytes) (v clear : bytes) :
  len k = 32 ->
  iv_or_default iv = Ok v ->
  aes_cbc_decrypt k v ct = Ok clear ->
  ~ In SPACE clear ->
  decrypt k ct iv = Raise ValueError.
Proof.
  intros Hk Hv Hc Hn.
  rewrite (decrypt_steps k ct iv v clear Hk Hv Hc), (split_no_sep SPACE clear Hn).
  reflexivity.
Qed.

(** X12. When the decrypted bytes hold exactly one byte [0x20], [decrypt]
    is the strict UTF-8 decoding of the bytes before it: the bytes after it
    play no part, and bytes that are not UTF-8 raise. *)
Theorem decrypt_one_delimiter (k ct : bytes) (iv : option bytes) (v a b : bytes) :
  len k = 32 ->
  iv_or_default iv = Ok v ->
  aes_cbc_decrypt k v ct = Ok (a ++ SPACE :: b) ->
  ~ In SPACE a ->
  ~ In SPACE b ->
  decrypt k ct iv = utf8_decode a.
Proof.
  intros Hk Hv Hc Ha Hb.
  rewrite (decrypt_steps k ct iv v _ Hk Hv Hc).
  rewrite (split_first SPACE a b Ha), (split_no_sep SPACE b Hb). reflexivity.
Qed.

(** X13. With the same IV on both sides, the default or any 16 bytes, and
    either padding mode, a text without a space comes back from [decrypt]
    whenever the padding holds no byte [0x20]. *)
Theorem decrypt_encrypt_same_iv (k : bytes) (p : str) (pad : bool)
    (iv : option bytes) (bp : bytes) :
  cbc_inverse -> (pad = false -> random_length) ->
  len k = 32 ->
  (forall v, iv = Some v -> len v = 16) ->
  utf8_encode p = Ok bp ->
  ~ In SPACE p ->
  (pad = false ->
   ~ In SPACE (get_random_bytes (Z.to_nat (16 - len (bp ++ [SPACE]) mod 16)))) ->
  exists ct, encrypt k p pad iv = Ok ct /\ decrypt k ct iv = Ok p.
Proof.
  intros Hcbc Hrnd Hk Hiv Hp Hns Hclean.
  destruct (iv_or_default_16 iv Hiv) as (v & Hv & Hvl).
  destruct (encrypt_returns k p pad iv bp v Hcbc Hrnd Hk Hp Hv Hvl)
    as (padding & ct & _ & _ & Hz & Hr & Henc & _ & Hdec).
  exists ct. split; [exact Henc|].
  rewrite (decrypt_steps k ct iv v _ Hk Hv Hdec), split_padded_clean.
  - now apply utf8_decode_encode.
  - now apply (utf8_encode_no_space p).
  - destruct pad.
    + rewrite (Hz eq_refl). apply repeat_zero_no_space.
    + rewrite (Hr eq_refl). now apply Hclean.
Qed.

(** X14. A text with a space in it never comes back: whatever the padding
    mode and the draw, [encrypt] returns a ciphertext on which [decrypt]
    raises [ValueError]. *)
Theorem decrypt_encrypt_space_in_text (k : bytes) (p : str) (pad : bool)
    (iv : option bytes) :
  cbc_inverse -> (pad = false -> random_length) ->
  len k = 32 ->
  (forall v, iv = Some v -> len v = 16) ->
  Forall scalar_value p ->
  In SPACE p ->
  exists ct, encrypt k p pad iv = Ok ct /\ decrypt k ct iv = Raise ValueError.
Proof.
  intros Hcbc Hrnd Hk Hiv Hp Hin.
  destruct (utf8_encode_total p Hp) as [bp Hbp].
  destruct (iv_or_default_16 iv Hiv) as (v & Hv & Hvl).
  destruct (encrypt_returns k p pad iv bp v Hcbc Hrnd Hk Hbp Hv Hvl)
    as (padding & ct & _ & _ & _ & _ & Henc & _ & Hdec).
  exists ct. split; [exact Henc|].
  rewrite (decrypt_steps k ct iv v _ Hk Hv Hdec).
  apply unpack_two_fails. rewrite split_length, !count_app.
  pose proof (utf8_encode_keeps_space p bp Hbp Hin) as Hb.
  apply count_pos_iff in Hb. change (count SPACE [SPACE]) with 1%nat. lia.
Qed.

(** X15. With a 32-byte key, a text that holds a code point [str.encode]
    refuses makes [encrypt] raise [UnicodeEncodeError], whatever the IV and
    the padding mode: the cipher is not reached. *)
Theorem encrypt_unencodable (k : bytes) (p : str) (pad : bool) (iv : option bytes) :
  len k = 32 ->
  ~ Forall scalar_value p ->
  encrypt k p pad iv = Raise UnicodeEncodeError.
Proof.
  intros Hk Hn. unfold encrypt. rewrite Hk. cbn [Z.eqb Pos.eqb negb].
  rewrite utf8_encode_refuses; [reflexivity|].
  intros H. apply Hn. now apply Forall_app in H as [H _].
Qed.

(** ** The parts of a derived child *)

Lemma string_to_int_big_endian (b : bytes) : string_to_int b = le_value (rev b).
Proof. rewrite <- (rev_involutive b) at 1. apply string_to_int_rev. Qed.

Lemma hex_digit_alphabet (d : Z) :
  0 <= d < 16 -> In (hex_digit d) (str_of_string "0123456789abcdef").
Proof.
  intros H.
  assert (C : d = 0 \/ d = 1 \/ d = 2 \/ d = 3 \/ d = 4 \/ d = 5 \/ d = 6 \/ d = 7
              \/ d = 8 \/ d = 9 \/ d = 10 \/ d = 11 \/ d = 12 \/ d = 13 \/ d = 14
              \/ d = 15) by lia.
  repeat (destruct C as [->|C]; [vm_compute; tauto|]). subst d. vm_compute. tauto.
Qed.

Lemma hex_alphabet (b : bytes) :
  Forall is_byte b ->
  Forall (fun c => In c (str_of_string "0123456789abcdef")) (hex b).
Proof.
  induction 1 as [|x r Hx _ IH]; [constructor|].
  unfold is_byte in Hx. cbn [hex flat_map app].
  constructor; [apply hex_digit_alphabet; euclid|].
  constructor; [apply hex_digit_alphabet; euclid|exact IH].
Qed.

(** C1. For a parent whose public key is [K], a context [s] and digests of
    64 bytes, [derive] computes [I], the HMAC keyed with the parent's
    [seed[32:]] over the UTF-8 bytes of the lowercase hex text of [K] (two
    digits a byte) followed by [s], serializes
    [(int(I[:32]) + int(seed[:32])) mod 2^256], both read big-endian, as
    [ks], and returns the child with the seed [ks + I[32:]]. The child's
    scalar [seed[:32]] and chain code [seed[32:]] are [ks] and [I[32:]]
    when [ks] has 32 bytes, and neither of them when [ks] is shorter, which
    is when the integer is below [2^248]. *)
Theorem derive_child_parts (parent : DerivableKey) (s : str) (K : bytes) :
  to_pubkey parent = Ok K ->
  Forall is_byte K ->
  Forall scalar_value s ->
  (forall key msg, len (hmac_sha512 key msg) = 64) ->
  exists ctx ks child,
    utf8_encode s = Ok ctx
    /\ utf8_encode (hex K ++ s) = Ok (hex K ++ ctx)
    /\ length (hex K) = (2 * length K)%nat
    /\ Forall (fun c => In c (str_of_string "0123456789abcdef")) (hex K)
    /\ let I := hmac_sha512 (skipn 32 (seed parent)) (hex K ++ ctx) in
       let ks_int :=
         (le_value (rev (firstn 32 I)) + le_value (rev (firstn 32 (seed parent))))
           mod 2 ^ 256 in
       int_to_string ks_int = Ok ks
       /\ le_value (rev ks) = ks_int
       /\ derive parent s = Ok child
       /\ seed child = ks ++ skipn 32 I
       /\ (len ks = 32 <-> 2 ^ 248 <= ks_int)
       /\ (len ks = 32 ->
           firstn 32 (seed child) = ks /\ skipn 32 (seed child) = skipn 32 I)
       /\ (len ks <> 32 ->
           len (seed child) < 64
           /\ firstn 32 (seed child) <> ks
           /\ skipn 32 (seed child) <> skipn 32 I).
Proof.
  intros HK HKb Hs H64.
  destruct (derive_message K s HKb Hs) as (ctx & Hctx & Hm).
  set (I := hmac_sha512 (skipn 32 (seed parent)) (hex K ++ ctx)).
  pose proof (H64 (skipn 32 (seed parent)) (hex K ++ ctx)) as HI. fold I in HI.
  pose proof (child_scalar_range parent I) as Hr.
  destruct (int_to_string_total (child_scalar parent I)) as [ks Eks]; [lia|].
  pose proof (int_to_string_at_most_32 _ ks Hr Eks) as Hks.
  assert (Hle : (length ks <= 32)%nat) by (unfold len in Hks; lia).
  assert (Hcs : length (skipn 32 I) = 32%nat)
    by (pose proof (len_skipn_32 I HI) as L; unfold len in L; lia).
  exists ctx, ks, {| seed := ks ++ skipn 32 I |}.
  split; [exact Hctx|]. split; [exact Hm|]. split; [apply hex_length|].
  split; [now apply hex_alphabet|].
  cbn zeta. fold I. rewrite <- !string_to_int_big_endian.
  change ((string_to_int (firstn 32 I) + string_to_int (firstn 32 (seed parent)))
            mod 2 ^ 256) with (child_scalar parent I).
  cbn [seed].
  split; [exact Eks|].
  split; [apply int_to_string_value; [lia|exact Eks]|].
  split; [rewrite (derive_steps parent s K _ HK Hm); fold I; now rewrite Eks|].
  split; [reflexivity|].
  split; [|split].
  - split.
    + intros H32. destruct (Z_lt_le_dec (child_scalar parent I) (2 ^ 248)) as [Hlt|Hge];
        [|exact Hge].
      pose proof (int_to_string_short _ ks (conj (proj1 Hr) Hlt) Eks). lia.
    + intros Hge. apply (int_to_string_full (child_scalar parent I)); [lia|exact Eks].
  - intros H32. assert (E : (32 - length ks = 0)%nat) by (unfold len in H32; lia).
    rewrite firstn_short_app, skipn_short_app, E by exact Hle.
    cbn [firstn skipn]. now rewrite app_nil_r.
  - intros Hn. assert (Hlt : (length ks < 32)%nat) by (unfold len in Hn, Hks; lia).
    split; [rewrite len_app; unfold len; lia|]. split.
    + intros E. apply (f_equal (@length Z)) in E.
      rewrite firstn_short_app, length_app, length_firstn in E by exact Hle. lia.
    + intros E. apply (f_equal (@length Z)) in E.
      rewrite skipn_short_app, length_skipn in E by exact Hle. lia.
Qed.

End DerivableKey.

(** ** The stand-ins meet the assumptions *)

Lemma all_bytes_spec (b : bytes) : Double.all_bytes b = true -> Forall is_byte b.
Proof.
  unfold Double.all_bytes. rewrite forallb_forall, Forall_forall.
  intros H x Hx. specialize (H x Hx). apply andb_true_iff in H as [H0 H1].
  apply Z.leb_le in H0. apply Z.ltb_lt in H1. now split.
Qed.

Lemma all_scalar_values_spec (s : str) :
  Double.all_scalar_values s = true -> Forall scalar_value s.
Proof.
  unfold Double.all_scalar_values. rewrite forallb_forall, Forall_forall.
  intros H x Hx. specialize (H x Hx).
  apply andb_true_iff in H as [H Hs]. apply andb_true_iff in H as [H0 H1].
  apply Z.leb_le in H0. apply Z.ltb_lt in H1. apply negb_true_iff in Hs.
  split; [lia|exact Hs].
Qed.

Lemma mask_involutive (data : bytes) : Double.mask (Double.mask data) = data.
Proof.
  unfold Double.mask. rewrite map_map. rewrite <- (map_id data) at 2.
  apply map_ext. intros x.
  now rewrite <- Z.lxor_assoc, Z.lxor_nilpotent, Z.lxor_0_l.
Qed.

Lemma len_mask (data : bytes) : len (Double.mask data) = len data.
Proof. unfold len, Double.mask. now rewrite length_map. Qed.

Lemma double_cbc_inverse : cbc_inverse Double.cbc_encrypt Double.cbc_decrypt.
Proof.
  intros key iv data Hk Hi Hd. exists (Double.mask data).
  unfold Double.cbc_encrypt, Double.cbc_decrypt, Double.cbc_ok.
  rewrite len_mask, Hk, Hi, Hd, mask_involutive. split; reflexivity.
Qed.

Lemma double_cbc_keeps_length : cbc_keeps_length Double.cbc_encrypt.
Proof.
  intros key iv data ct. unfold Double.cbc_encrypt.
  destruct (Double.cbc_ok key iv data); [|discriminate].
  intros H. apply Ok_inj in H. subst ct. apply len_mask.
Qed.

Lemma zero_bytes_length : random_length Double.zero_bytes.
Proof. intros n. apply repeat_length. Qed.

Lemma space_bytes_length : random_length Double.space_bytes.
Proof. intros n. apply repeat_length. Qed.

Lemma ramp_bytes_length : random_length Double.ramp_bytes.
Proof. intros n. unfold Double.ramp_bytes. now rewrite length_map, length_seq. Qed.

Lemma Some_inj {A : Type} (a b : A) : Some a = Some b -> a = b.
Proof. congruence. Qed.

(** ** The model on small inputs *)

Example int_to_string_258 : int_to_string 258 = Ok [1; 2].
Proof. reflexivity. Qed.

Example int_to_string_65536 : int_to_string 65536 = Ok [1; 0; 0].
Proof. reflexivity. Qed.

Example string_to_int_leading_zero : string_to_int [0; 1; 2] = 258.
Proof. reflexivity. Qed.

Example hex_bytes : hex [0; 255; 16; 171] = str_of_string "00ff10ab".
Proof. reflexivity. Qed.

Example split_trailing : split SPACE [97; 32; 98; 32] = [[97]; [98]; []].
Proof. reflexivity. Qed.

Example split_empty : split SPACE [] = [[]].
Proof. reflexivity. Qed.

(** U+20AC, U+0041, U+00E9 and U+1F600. *)
Example utf8_encode_widths :
  utf8_encode [0x20AC; 0x41; 0xE9; 0x1F600]
  = Ok [0xE2; 0x82; 0xAC; 0x41; 0xC3; 0xA9; 0xF0; 0x9F; 0x98; 0x80].
Proof. reflexivity. Qed.

Example utf8_encode_surrogate : utf8_encode [0xD800] = Raise UnicodeEncodeError.
Proof. reflexivity. Qed.

Example utf8_decode_overlong : utf8_decode [0xC0; 0x80] = Raise UnicodeDecodeError.
Proof. reflexivity. Qed.

Example utf8_decode_surrogate :
  utf8_decode [0xED; 0xA0; 0x80] = Raise UnicodeDecodeError.
Proof. reflexivity. Qed.

Example utf8_decode_truncated : utf8_decode [0xE2; 0x82] = Raise UnicodeDecodeError.
Proof. reflexivity. Qed.

(** Random padding without a byte [0x20]: the vote comes back. *)
Example round_trip_ramp :
  (ct <- encrypt Double.ramp_bytes Double.cbc_encrypt Double.key32
           (str_of_string "yes") false None;;
   decrypt Double.cbc_decrypt Double.key32 ct None)
  = Ok (str_of_string "yes").
Proof. vm_compute. reflexivity. Qed.

(** A key that is not 32 bytes long fails the assertion. *)
Example encrypt_short_key :
  encrypt Double.ramp_bytes Double.cbc_encrypt [1; 2; 3] (str_of_string "yes") false None
  = Raise AssertionError.
Proof. reflexivity. Qed.

(** No delimiter in the decrypted bytes: the unpacking fails. *)
Example decrypt_no_space :
  decrypt Double.cbc_decrypt Double.key32 (Double.mask (repeat 97 16%nat)) None
  = Raise ValueError.
Proof. vm_compute. reflexivity. Qed.

(** One delimiter, but the segment before it is not UTF-8. *)
Example decrypt_invalid_utf8 :
  decrypt Double.cbc_decrypt Double.key32
    (Double.mask ([0xC3; 32] ++ repeat 0 14%nat)) None
  = Raise UnicodeDecodeError.
Proof. vm_compute. reflexivity. Qed.

(** ** The theorems at concrete inputs *)

Lemma string_to_int_int_to_string_witness :
  0 <= 258
  /\ exists s,
       int_to_string 258 = Ok s
       /\ string_to_int s = 258
       /\ Forall is_byte s
       /\ (0 < 258 -> exists b r, s = b :: r /\ b <> 0)
       /\ (258 = 0 -> s = [0]).
Proof.
  split; [lia | apply (string_to_int_int_to_string 258); lia].
Defined.

Lemma double_hmac_length (key msg : bytes) : len (Double.hmac_sha512 key msg) = 64.
Proof.
  unfold len, Double.hmac_sha512.
  rewrite length_app, repeat_length, length_firstn, length_app, repeat_length. lia.
Qed.

(** The parent with scalar 2: the message is the hex text of the public key
    and ["a"], the child scalar integer is 1, so [ks] is one byte and the
    child's [seed[:32]] runs on into the chain code. *)
Lemma derive_child_parts_witness :
  utf8_encode (hex (Double.pubkey_of Double.parent_two) ++ Double.context)
  = Ok (str_of_string
          "0400000000000000000000000000000000000000000000000000000000000000020000000000000000000000000000000000000000000000000000000000000002a")
  /\ derive Double.public_key Double.hmac_sha512 Double.parent_two Double.context
     = Ok {| seed := 1 :: repeat 9 32%nat |}
  /\ firstn 32 (1 :: repeat 9 32%nat) = 1 :: repeat 9 31%nat
  /\ skipn 32 (1 :: repeat 9 32%nat) = [9]
  /\ exists ctx ks child,
       utf8_encode Double.context = Ok ctx
       /\ utf8_encode (hex (Double.pubkey_of Double.parent_two) ++ Double.context)
          = Ok (hex (Double.pubkey_of Double.parent_two) ++ ctx)
       /\ length (hex (Double.pubkey_of Double.parent_two))
          = (2 * length (Double.pubkey_of Double.parent_two))%nat
       /\ Forall (fun c => In c (str_of_string "0123456789abcdef"))
            (hex (Double.pubkey_of Double.parent_two))
       /\ let I := Double.hmac_sha512 (skipn 32 (seed Double.parent_two))
                     (hex (Double.pubkey_of Double.parent_two) ++ ctx) in
          let ks_int :=
            (le_value (rev (firstn 32 I))
             + le_value (rev (firstn 32 (seed Double.parent_two)))) mod 2 ^ 256 in
          int_to_string ks_int = Ok ks
          /\ le_value (rev ks) = ks_int
          /\ derive Double.public_key Double.hmac_sha512 Double.parent_two
               Double.context = Ok child
          /\ seed child = ks ++ skipn 32 I
          /\ (len ks = 32 <-> 2 ^ 248 <= ks_int)
          /\ (len ks = 32 ->
              firstn 32 (seed child) = ks /\ skipn 32 (seed child) = skipn 32 I)
          /\ (len ks <> 32 ->
              len (seed child) < 64
              /\ firstn 32 (seed child) <> ks
              /\ skipn 32 (seed child) <> skipn 32 I).
Proof.
  split; [vm_compute; reflexivity|].
  split; [vm_compute; reflexivity|].
  split; [reflexivity|].
  split; [reflexivity|].
  apply (derive_child_parts Double.public_key Double.hmac_sha512 Double.parent_two
           Double.context (Double.pubkey_of Double.parent_two)).
  - reflexivity.
  - apply all_bytes_spec. vm_compute. reflexivity.
  - apply all_scalar_values_spec. vm_compute. reflexivity.
  - exact double_hmac_length.
Defined.

Lemma derive_short_seed_witness :
  child_scalar Double.parent_two (Double.digest Double.parent_two) < 2 ^ 248
  /\ exists child,
       derive Double.public_key Double.hmac_sha512 Double.parent_two Double.context
       = Ok child
       /\ 33 <= len (seed child) <= 63.
Proof.
  split; [vm_compute; reflexivity|].
  apply (derive_short_seed Double.public_key Double.hmac_sha512 Double.parent_two
           Double.context (Double.pubkey_of Double.parent_two)
           (Double.message Double.parent_two)).
  - reflexivity.
  - vm_compute. reflexivity.
  - vm_compute. reflexivity.
  - vm_compute. reflexivity.
Defined.

(** With the stand-in digest, whose first 32 bytes are [0xFF], and the
    scalar 1 the child scalar integer is 0. *)
Lemma zero_child_scalar_returns :
  child_scalar Double.parent_one (Double.digest Double.parent_one) = 0
  /\ derive Double.public_key Double.hmac_sha512 Double.parent_one Double.context
     = Ok {| seed := 0 :: repeat 9 32%nat |}
  /\ ~ (exists e,
          derive Double.public_key Double.hmac_sha512 Double.parent_one
            Double.context
          = Raise e).
Proof.
  split; [vm_compute; reflexivity|].
  assert (E : derive Double.public_key Double.hmac_sha512 Double.parent_one
                Double.context
              = Ok {| seed := 0 :: repeat 9 32%nat |}) by (vm_compute; reflexivity).
  split; [exact E|]. intros [e He]. rewrite E in He. discriminate He.
Qed.

Lemma derive_zero_scalar_witness :
  child_scalar Double.parent_one (Double.digest Double.parent_one) = 0
  /\ derive Double.public_key Double.hmac_sha512 Double.parent_one Double.context
     = Ok {| seed := 0 :: skipn 32 (Double.digest Double.parent_one) |}.
Proof.
  split; [vm_compute; reflexivity|].
  apply (derive_zero_scalar Double.public_key Double.hmac_sha512 Double.parent_one
           Double.context (Double.pubkey_of Double.parent_one)
           (Double.message Double.parent_one)).
  - reflexivity.
  - vm_compute. reflexivity.
  - vm_compute. reflexivity.
Defined.

Lemma decrypt_encrypt_zero_padding_witness :
  len Double.key32 = 32
  /\ ~ In SPACE (str_of_string "yes")
  /\ exists ct,
       encrypt Double.zero_bytes Double.cbc_encrypt Double.key32
         (str_of_string "yes") true None = Ok ct
       /\ decrypt Double.cbc_decrypt Double.key32 ct None = Ok (str_of_string "yes").
Proof.
  assert (Hns : ~ In SPACE (str_of_string "yes"))
    by (apply count_zero_iff; reflexivity).
  split; [reflexivity|]. split; [exact Hns|].
  apply (decrypt_encrypt_zero_padding Double.zero_bytes Double.cbc_encrypt
           Double.cbc_decrypt Double.key32 (str_of_string "yes")).
  - exact double_cbc_inverse.
  - reflexivity.
  - apply all_scalar_values_spec. reflexivity.
  - exact Hns.
Defined.

Lemma encrypt_random_space_breaks_decrypt_witness :
  utf8_encode (str_of_string "yes") = Ok [121; 101; 115]
  /\ In SPACE (Double.space_bytes (Z.to_nat (16 - len ([121; 101; 115] ++ [SPACE]) mod 16)))
  /\ exists ct,
       encrypt Double.space_bytes Double.cbc_encrypt Double.key32
         (str_of_string "yes") false None = Ok ct
       /\ decrypt Double.cbc_decrypt Double.key32 ct None = Raise ValueError.
Proof.
  assert (Hin : In SPACE (Double.space_bytes
                            (Z.to_nat (16 - len ([121; 101; 115] ++ [SPACE]) mod 16))))
    by (apply count_pos_iff; vm_compute; lia).
  split; [reflexivity|]. split; [exact Hin|].
  apply (encrypt_random_space_breaks_decrypt Double.space_bytes Double.cbc_encrypt
           Double.cbc_decrypt Double.key32 (str_of_string "yes") [121; 101; 115]).
  - exact double_cbc_inverse.
  - exact space_bytes_length.
  - reflexivity.
  - reflexivity.
  - exact Hin.
Defined.

Lemma decrypt_text_with_space_witness :
  len Double.key32 = 32
  /\ exists ct,
       encrypt Double.zero_bytes Double.cbc_encrypt Double.key32
         (str_of_string "a b") true None = Ok ct
       /\ decrypt Double.cbc_decrypt Double.key32 ct None = Raise ValueError.
Proof.
  split; [reflexivity|].
  apply (decrypt_text_with_space Double.zero_bytes Double.cbc_encrypt
           Double.cbc_decrypt Double.key32).
  - exact double_cbc_inverse.
  - reflexivity.
Defined.

Lemma encrypt_length_witness :
  len Double.key32 = 32
  /\ exists bp padding ct,
       utf8_encode (str_of_string "fifteen letters") = Ok bp
       /\ random_padding Double.ramp_bytes (bp ++ [SPACE]) 16 false
          = Ok ((bp ++ [SPACE]) ++ padding)
       /\ len padding = 16 - (len bp + 1) mod 16
       /\ 1 <= len padding <= 16
       /\ ((len bp + 1) mod 16 = 0 -> len padding = 16)
       /\ encrypt Double.ramp_bytes Double.cbc_encrypt Double.key32
            (str_of_string "fifteen letters") false None = Ok ct
       /\ len ct = len bp + 1 + len padding
       /\ len ct mod 16 = 0
       /\ len bp + 1 <= len ct.
Proof.
  split; [reflexivity|].
  apply (encrypt_length Double.ramp_bytes Double.cbc_encrypt Double.cbc_decrypt
           Double.key32 (str_of_string "fifteen letters") false None).
  - exact double_cbc_inverse.
  - exact double_cbc_keeps_length.
  - exact ramp_bytes_length.
  - reflexivity.
  - apply all_scalar_values_spec. reflexivity.
  - intros v Hv. discriminate Hv.
Defined.

Lemma decrypt_exactly_one_space_witness :
  len Double.key32 = 32
  /\ (forall s,
        decrypt Double.cbc_decrypt Double.key32 Double.two_spaces_ct None = Ok s ->
        exists v clear,
          iv_or_default None = Ok v
          /\ Double.cbc_decrypt Double.key32 v Double.two_spaces_ct = Ok clear
          /\ count SPACE clear = 1%nat)
  /\ (forall v clear,
        iv_or_default None = Ok v ->
        Double.cbc_decrypt Double.key32 v Double.two_spaces_ct = Ok clear ->
        (2 <= count SPACE clear)%nat ->
        decrypt Double.cbc_decrypt Double.key32 Double.two_spaces_ct None
        = Raise ValueError).
Proof.
  split; [reflexivity|].
  apply (decrypt_exactly_one_space Double.cbc_decrypt Double.key32
           Double.two_spaces_ct None).
  reflexivity.
Defined.

(** The ciphertext of ["a b "] under the stand-in cipher decrypts to bytes
    with two spaces, and [decrypt] raises. *)
Lemma decrypt_two_spaces_run :
  Double.cbc_decrypt Double.key32 Double.iv16 Double.two_spaces_ct
  = Ok Double.two_spaces
  /\ count SPACE Double.two_spaces = 2%nat
  /\ decrypt Double.cbc_decrypt Double.key32 Double.two_spaces_ct None
     = Raise ValueError.
Proof. repeat split; vm_compute; reflexivity. Qed.

(** ** The further properties at concrete inputs *)

Lemma int_to_string_width_witness :
  0 < 65536
  /\ exists s, int_to_string 65536 = Ok s /\ 256 ^ (len s - 1) <= 65536 < 256 ^ len s.
Proof.
  split; [lia | apply (int_to_string_width 65536); lia].
Defined.

Lemma int_to_string_string_to_int_witness :
  int_to_string (string_to_int (repeat 0 2%nat ++ 1 :: [0; 255])) = Ok (1 :: [0; 255]).
Proof.
  apply (int_to_string_string_to_int 2 1 [0; 255]).
  - apply all_bytes_spec. reflexivity.
  - discriminate.
Defined.

Lemma string_to_int_range_witness :
  0 <= string_to_int [1; 2; 3] < 256 ^ len [1; 2; 3].
Proof.
  apply (string_to_int_range [1; 2; 3]). apply all_bytes_spec. reflexivity.
Defined.

Lemma random_padding_block_witness :
  0 < 4
  /\ exists padding,
       random_padding Double.ramp_bytes [1; 2; 3; 4; 5] 4 false
       = Ok ([1; 2; 3; 4; 5] ++ padding)
       /\ 1 <= len padding <= 4
       /\ len ([1; 2; 3; 4; 5] ++ padding) = 4 * (len [1; 2; 3; 4; 5] / 4 + 1)
       /\ len ([1; 2; 3; 4; 5] ++ padding) mod 4 = 0
       /\ (false = true -> Forall (fun b => b = 0) padding).
Proof.
  split; [lia|].
  apply (random_padding_block Double.ramp_bytes [1; 2; 3; 4; 5] 4 false).
  - lia.
  - intros _. exact ramp_bytes_length.
Defined.

Lemma derive_returns_iff_witness :
  ((exists child,
      derive Double.public_key Double.hmac_sha512 Double.parent_high Double.context
      = Ok child)
   <-> Forall scalar_value Double.context)
  /\ (~ Forall scalar_value Double.context ->
      derive Double.public_key Double.hmac_sha512 Double.parent_high Double.context
      = Raise UnicodeEncodeError).
Proof.
  apply (derive_returns_iff Double.public_key Double.hmac_sha512 Double.parent_high
           Double.context (Double.pubkey_of Double.parent_high)).
  - reflexivity.
  - apply all_bytes_spec. vm_compute. reflexivity.
Defined.

Lemma to_aes_key_ignores_chain_code_witness :
  to_pubkey Double.public_key {| seed := Double.key32 ++ [1; 2] |}
  = Double.public_key Double.key32
  /\ to_aes_key Double.public_key Double.sha256 {| seed := Double.key32 ++ [1; 2] |}
     = (K <- Double.public_key Double.key32;; Ok (Double.sha256 K))
  /\ to_aes_key Double.public_key Double.sha256 {| seed := Double.key32 ++ [1; 2] |}
     = to_aes_key Double.public_key Double.sha256 {| seed := Double.key32 ++ [3] |}.
Proof.
  apply (to_aes_key_ignores_chain_code Double.public_key Double.sha256
           Double.key32 [1; 2] [3]).
  reflexivity.
Defined.

Lemma derive_child_slices_witness :
  exists ks child,
    int_to_string (child_scalar Double.parent_two (Double.digest Double.parent_two))
    = Ok ks
    /\ derive Double.public_key Double.hmac_sha512 Double.parent_two Double.context
       = Ok child
    /\ 1 <= len ks <= 32
    /\ len (seed child) = len ks + 32
    /\ firstn 32 (seed child)
       = ks ++ firstn (32 - length ks) (skipn 32 (Double.digest Double.parent_two))
    /\ skipn 32 (seed child)
       = skipn (32 - length ks) (skipn 32 (Double.digest Double.parent_two))
    /\ to_pubkey Double.public_key child = Double.public_key (firstn 32 (seed child))
    /\ (len ks = 32 ->
        firstn 32 (seed child) = ks
        /\ skipn 32 (seed child) = skipn 32 (Double.digest Double.parent_two)).
Proof.
  apply (derive_child_slices Double.public_key Double.hmac_sha512 Double.parent_two
           Double.context (Double.pubkey_of Double.parent_two)
           (Double.message Double.parent_two)).
  - reflexivity.
  - vm_compute. reflexivity.
  - vm_compute. reflexivity.
Defined.

Lemma derive_message_injective_witness :
  Double.pubkey_of Double.parent_high = Double.pubkey_of Double.parent_high
  /\ Double.context = Double.context.
Proof.
  apply (derive_message_injective (Double.pubkey_of Double.parent_high)
           (Double.pubkey_of Double.parent_high) Double.context Double.context
           (Double.message Double.parent_high)).
  - apply all_bytes_spec. vm_compute. reflexivity.
  - apply all_bytes_spec. vm_compute. reflexivity.
  - reflexivity.
  - vm_compute. reflexivity.
  - vm_compute. reflexivity.
Defined.

Lemma encrypt_ciphertext_length_witness :
  exists bp ct,
    utf8_encode (str_of_string "fifteen letters") = Ok bp
    /\ encrypt Double.ramp_bytes Double.cbc_encrypt Double.key32
         (str_of_string "fifteen letters") false (Some Double.other_iv) = Ok ct
    /\ len ct = 16 * ((len bp + 1) / 16 + 1)
    /\ len bp + 1 < len ct.
Proof.
  apply (encrypt_ciphertext_length Double.ramp_bytes Double.cbc_encrypt
           Double.cbc_decrypt Double.key32 (str_of_string "fifteen letters") false
           (Some Double.other_iv)).
  - exact double_cbc_inverse.
  - exact double_cbc_keeps_length.
  - exact ramp_bytes_length.
  - reflexivity.
  - apply all_scalar_values_spec. reflexivity.
  - intros v Hv. apply Some_inj in Hv. subst v. reflexivity.
Defined.

Lemma decrypt_no_delimiter_witness :
  ~ In SPACE (repeat 97 16%nat)
  /\ decrypt Double.cbc_decrypt Double.key32 (Double.mask (repeat 97 16%nat)) None
     = Raise ValueError.
Proof.
  assert (Hn : ~ In SPACE (repeat 97 16%nat)) by (apply count_zero_iff; reflexivity).
  split; [exact Hn|].
  apply (decrypt_no_delimiter Double.cbc_decrypt Double.key32
           (Double.mask (repeat 97 16%nat)) None Double.iv16 (repeat 97 16%nat)).
  - reflexivity.
  - reflexivity.
  - vm_compute. reflexivity.
  - exact Hn.
Defined.

(** The bytes before the delimiter are those of U+00E9. *)
Lemma decrypt_one_delimiter_witness :
  decrypt Double.cbc_decrypt Double.key32
    (Double.mask ([0xC3; 0xA9] ++ SPACE :: repeat 0 13%nat)) (Some Double.other_iv)
  = utf8_decode [0xC3; 0xA9].
Proof.
  apply (decrypt_one_delimiter Double.cbc_decrypt Double.key32
           (Double.mask ([0xC3; 0xA9] ++ SPACE :: repeat 0 13%nat))
           (Some Double.other_iv) Double.other_iv [0xC3; 0xA9] (repeat 0 13%nat)).
  - reflexivity.
  - reflexivity.
  - vm_compute. reflexivity.
  - apply count_zero_iff. reflexivity.
  - apply count_zero_iff. reflexivity.
Defined.

Lemma decrypt_encrypt_same_iv_witness :
  exists ct,
    encrypt Double.ramp_bytes Double.cbc_encrypt Double.key32 (str_of_string "yes")
      false (Some Double.other_iv) = Ok ct
    /\ decrypt Double.cbc_decrypt Double.key32 ct (Some Double.other_iv)
       = Ok (str_of_string "yes").
Proof.
  apply (decrypt_encrypt_same_iv Double.ramp_bytes Double.cbc_encrypt
           Double.cbc_decrypt Double.key32 (str_of_string "yes") false
           (Some Double.other_iv) [121; 101; 115]).
  - exact double_cbc_inverse.
  - intros _. exact ramp_bytes_length.
  - reflexivity.
  - intros v Hv. apply Some_inj in Hv. subst v. reflexivity.
  - reflexivity.
  - apply count_zero_iff. reflexivity.
  - intros _. apply count_zero_iff. reflexivity.
Defined.

Lemma decrypt_encrypt_space_in_text_witness :
  In SPACE (str_of_string "yes no")
  /\ exists ct,
       encrypt Double.ramp_bytes Double.cbc_encrypt Double.key32
         (str_of_string "yes no") false None = Ok ct
       /\ decrypt Double.cbc_decrypt Double.key32 ct None = Raise ValueError.
Proof.
  assert (Hin : In SPACE (str_of_string "yes no"))
    by (apply count_pos_iff; vm_compute; lia).
  split; [exact Hin|].
  apply (decrypt_encrypt_space_in_text Double.ramp_bytes Double.cbc_encrypt
           Double.cbc_decrypt Double.key32 (str_of_string "yes no") false None).
  - exact double_cbc_inverse.
  - intros _. exact ramp_bytes_length.
  - reflexivity.
  - intros v Hv. discriminate Hv.
  - apply all_scalar_values_spec. reflexivity.
  - exact Hin.
Defined.

Lemma lone_surrogate_refused : ~ Forall scalar_value [0xD800].
Proof.
  intros H. inversion H as [|c r [_ Hs] _]. discriminate Hs.
Qed.

Lemma encrypt_unencodable_witness :
  encrypt Double.ramp_bytes Double.cbc_encrypt Double.key32 [0xD800] true None
  = Raise UnicodeEncodeError.
Proof.
  apply (encrypt_unencodable Double.ramp_bytes Double.cbc_encrypt Double.key32
           [0xD800] true None).
  - reflexivity.
  - exact lone_surrogate_refused.
Defined.

Lemma derive_seed_length_witness :
  derive Double.public_key Double.hmac_sha512 Double.parent_high Double.context
  = Ok Double.child_high
  /\ (len (seed Double.child_high) = 64
      <-> 2 ^ 248 <= child_scalar Double.parent_high (Double.digest Double.parent_high)).
Proof.
  split; [vm_compute; reflexivity|].
  apply (derive_seed_length Double.public_key Double.hmac_sha512 Double.parent_high
           Double.context (Double.pubkey_of Double.parent_high)
           (Double.message Double.parent_high) Double.child_high).
  - reflexivity.
  - vm_compute. reflexivity.
  - vm_compute. reflexivity.
  - vm_compute. reflexivity.
Defined.
